(** * Calendly Combine: the wizard front end and the availability overlap engine

    A shallow embedding of the TypeScript sources of the wizard
    (calendar-form.tsx, the server action of the wizard, lib/api/clerk.ts
    and the storage helpers) together with a model of the availability
    overlap engine, and the properties established about them. *)

From Stdlib Require Import ZArith QArith Lia Bool Ascii String.
From stdpp Require Import base option list strings gmap sorting.

Local Open Scope string_scope.
Local Open Scope list_scope.
Local Open Scope Z_scope.

(** ** JavaScript preliminaries *)

Module Js.

(** A value thrown by a [throw] statement or by a platform function. *)
Inductive exn : Type :=
| TypeError (msg : string)
| SyntaxError (msg : string)
| DOMException (name : string)
| OtherError (msg : string).

(** The completion of a computation: it returns a value or throws.  For an
    [async] function [Returned] is the fulfilled promise and [Thrown] the
    rejected one. *)
Inductive outcome (A : Type) : Type :=
| Returned (a : A)
| Thrown (e : exn).
Arguments Returned {A} a.
Arguments Thrown {A} e.

#[global] Instance outcome_ret : MRet outcome := fun A a => Returned a.
#[global] Instance outcome_bind : MBind outcome := fun A B k m =>
  match m with
  | Returned a => k a
  | Thrown e => Thrown e
  end.

#[global] Instance outcome_fmap : FMap outcome := fun A B f m =>
  match m with
  | Returned a => Returned (f a)
  | Thrown e => Thrown e
  end.

(** [try { body } catch (e) { handler e }] *)
Definition try_catch {A} (body : outcome A) (handler : exn → outcome A) : outcome A :=
  match body with
  | Returned a => Returned a
  | Thrown e => handler e
  end.

Definition returns {A} (m : outcome A) : Prop := ∃ a, m = Returned a.

(** Numbers.  A double is NaN, an infinity or a finite value; the finite
    values are rationals, and the code under study only compares numbers
    and tests them for integrality, so no rounding is involved. *)
Inductive JsNum : Type :=
| NaN
| PosInf
| NegInf
| Fin (q : Q).

Definition ofZ (z : Z) : JsNum := Fin (inject_Z z).

(** [Number.isInteger] *)
Definition isInteger (n : JsNum) : bool :=
  match n with
  | Fin q => (Qnum q mod Zpos (Qden q) =? 0)%Z
  | _ => false
  end.

(** [a <= b] on numbers (false as soon as one side is NaN). *)
Definition num_le (a b : JsNum) : bool :=
  match a, b with
  | NaN, _ | _, NaN => false
  | NegInf, _ => true
  | _, PosInf => true
  | Fin p, Fin q => Qle_bool p q
  | _, _ => false
  end.

(** SameValueZero, the comparison of [Array.prototype.includes]. *)
Definition sameValueZero (a b : JsNum) : bool :=
  match a, b with
  | NaN, NaN => true
  | PosInf, PosInf => true
  | NegInf, NegInf => true
  | Fin p, Fin q => Qeq_bool p q
  | _, _ => false
  end.

(** Plain data as a server action or [JSON.parse] delivers it. *)
#[local] Set Warnings "-register-all".
Inductive JsValue : Type :=
| JUndefined
| JNull
| JBool (b : bool)
| JNum (n : JsNum)
| JStr (s : string)
| JArr (items : list JsValue)
| JObj (props : list (string * JsValue)).

(** [obj[key]]: the value of an own property, [undefined] when absent. *)
Fixpoint getProp (key : string) (props : list (string * JsValue)) : JsValue :=
  match props with
  | [] => JUndefined
  | (k, v) :: rest => if String.eqb k key then v else getProp key rest
  end.

(** Truthiness of a string: only the empty string is falsy. *)
Definition truthy_string (s : string) : bool := negb (String.eqb s "").

(** [list.includes(s)] on an array of strings (strict equality). *)
Definition includes_string (l : list string) (s : string) : bool :=
  existsb (String.eqb s) l.

(** [list.includes(n)] on an array of numbers. *)
Definition includes_num (l : list JsNum) (n : JsNum) : bool :=
  existsb (sameValueZero n) l.

(** The WHATWG URL record, reduced to the field the sources read. *)
Record URL : Type := mkURL { hostname : string }.

(** Functions of the platform the sources call and the repository does
    not define. *)
Class Platform : Type := {
  (** [new URL(s)]: throws a TypeError when [s] is not a valid URL. *)
  new_URL : string → outcome URL;
  (** [Number(s)] on a string (StringToNumber of ECMAScript). *)
  StringToNumber : string → JsNum;
  (** [Number(o)] on an array or an object (through ToPrimitive). *)
  ObjectToNumber : JsValue → JsNum;
}.

(** [Number(v)] *)
Definition Number `{Platform} (v : JsValue) : JsNum :=
  match v with
  | JUndefined => NaN
  | JNull => ofZ 0
  | JBool true => ofZ 1
  | JBool false => ofZ 0
  | JNum n => n
  | JStr s => StringToNumber s
  | JArr _ | JObj _ => ObjectToNumber v
  end.

End Js.
Import Js.

(** ** The part of the zod library the schemas use

    A schema parses a value found at a path.  The parse reports issues
    and yields an output unless it was aborted; a value with issues that
    was not aborted is what zod calls dirty, and later refinements still
    run on it.  A parse throws only when a refinement callback does. *)

Module Zod.

Inductive PathSeg : Type :=
| Key (k : string)
| Idx (i : nat).

Inductive IssueCode : Type :=
| invalid_type
| invalid_string
| too_small
| custom.

(** [message] is [Some m] when the source supplies the text and [None]
    when the text is the default one of the library. *)
Record ZodIssue : Type := mkIssue {
  code : IssueCode;
  path : list PathSeg;
  message : option string;
}.

Record ParseReturn (T : Type) : Type := mkParse {
  issues : list ZodIssue;
  output : option T;
}.
Arguments mkParse {T} issues output.
Arguments issues {T} p.
Arguments output {T} p.

Definition Schema (T : Type) : Type := list PathSeg → JsValue → outcome (ParseReturn T).

Definition aborted {T} (i : ZodIssue) : ParseReturn T := mkParse [i] None.

(** [z.string().url(msg)]: the input must be a string; the url check runs
    [new URL] inside zod's own try/catch and leaves the value dirty. *)
Definition string_url `{Platform} (msg : option string) : Schema string :=
  fun p v =>
    match v with
    | JStr s =>
        match new_URL s with
        | Returned _ => Returned (mkParse [] (Some s))
        | Thrown _ => Returned (mkParse [mkIssue invalid_string p msg] (Some s))
        end
    | _ => Returned (aborted (mkIssue invalid_type p None))
    end.

(** [schema.refine(check, msg)]: skipped when the inner parse aborted,
    run otherwise; a throwing callback is not caught. *)
Definition refine {T} (inner : Schema T) (check : T → outcome bool)
    (msg : option string) : Schema T :=
  fun p v =>
    r ← inner p v;
    match output r with
    | None => Returned r
    | Some x =>
        ok ← check x;
        Returned (if ok : bool then r
                  else mkParse (issues r ++ [mkIssue custom p msg]) (Some x))
    end.

(** [z.number().int().positive()] *)
Definition number_int_positive : Schema JsNum :=
  fun p v =>
    match v with
    | JNum NaN => Returned (aborted (mkIssue invalid_type p None))
    | JNum n =>
        Returned (mkParse
          ((if isInteger n then [] else [mkIssue invalid_type p None]) ++
           (if num_le n (ofZ 0) then [mkIssue too_small p None] else []))
          (Some n))
    | _ => Returned (aborted (mkIssue invalid_type p None))
    end.

(** [z.coerce.number({ invalid_type_error })]: the input is replaced by
    [Number(input)] and rejected when that is NaN. *)
Definition coerce_number `{Platform} (invalid_type_error : option string) : Schema JsNum :=
  fun p v =>
    match Number v with
    | NaN => Returned (aborted (mkIssue invalid_type p invalid_type_error))
    | n => Returned (mkParse [] (Some n))
    end.

(** The elements of an array, parsed left to right at the paths
    [p ++ [Idx i]]; the array aborts as soon as one element did. *)
Fixpoint parse_items {T} (elem : Schema T) (p : list PathSeg) (i : nat)
    (items : list JsValue) : outcome (ParseReturn (list T)) :=
  match items with
  | [] => Returned (mkParse [] (Some []))
  | v :: rest =>
      r ← elem (p ++ [Idx i]) v;
      rs ← parse_items elem p (S i) rest;
      Returned (mkParse (issues r ++ issues rs)
                  (match output r, output rs with
                   | Some x, Some xs => Some (x :: xs)
                   | _, _ => None
                   end))
  end.

(** [z.array(elem).min(n, msg)] *)
Definition array_min {T} (elem : Schema T) (n : nat) (msg : option string) :
    Schema (list T) :=
  fun p v =>
    match v with
    | JArr items =>
        rs ← parse_items elem p 0 items;
        Returned (mkParse
          ((if (length items <? n)%nat then [mkIssue too_small p msg] else []) ++ issues rs)
          (output rs))
    | _ => Returned (aborted (mkIssue invalid_type p None))
    end.

(** The value of one key of a [z.object] shape. *)
Definition field {T} (key : string) (s : Schema T) (p : list PathSeg)
    (props : list (string * JsValue)) : outcome (ParseReturn T) :=
  s (p ++ [Key key]) (getProp key props).

(** [z.object({ k : s })] *)
Definition object1 {A R} (k : string) (s : Schema A) (mk : A → R) : Schema R :=
  fun p v =>
    match v with
    | JObj props =>
        r ← field k s p props;
        Returned (mkParse (issues r) (mk <$> output r))
    | _ => Returned (aborted (mkIssue invalid_type p None))
    end.

(** [z.object({ k1 : s1, k2 : s2 })]: every key is parsed, in the order of
    the shape, and the object aborts when one of them did. *)
Definition object2 {A B R} (k1 : string) (s1 : Schema A) (k2 : string) (s2 : Schema B)
    (mk : A → B → R) : Schema R :=
  fun p v =>
    match v with
    | JObj props =>
        r1 ← field k1 s1 p props;
        r2 ← field k2 s2 p props;
        Returned (mkParse (issues r1 ++ issues r2)
                    (match output r1, output r2 with
                     | Some a, Some b => Some (mk a b)
                     | _, _ => None
                     end))
    | _ => Returned (aborted (mkIssue invalid_type p None))
    end.

(** The result of [schema.safeParse(data)]. *)
Inductive SafeParseReturn (T : Type) : Type :=
| ParseSuccess (data : T)
| ParseError (error : list ZodIssue).
Arguments ParseSuccess {T} data.
Arguments ParseError {T} error.

Definition safeParse {T} (s : Schema T) (data : JsValue) : outcome (SafeParseReturn T) :=
  r ← s [] data;
  Returned (match issues r, output r with
            | [], Some x => ParseSuccess x
            | _, _ => ParseError (issues r)
            end).

Definition success {T} (r : SafeParseReturn T) : bool :=
  match r with
  | ParseSuccess _ => true
  | ParseError _ => false
  end.

End Zod.
Import Zod.

(** ** components/wizard/calendar-form.tsx

    The helper [isValidCalendarUrl] (lines 31-42), [LinkSchema] (45-51),
    [allowedDurations] (54), [FormSchema] (56-63), [durationOptions]
    (68-79) and [defaultFormValues] (82-85). *)

Module CalendarForm.

(** The hostnames the helper below lets through. *)
Definition calendar_host (h : string) : Prop :=
  h = "calendly.com" ∨ h = "www.calendly.com" ∨ h = "calendar.google.com".

(** Helper function to check URL hostname. *)
Definition isValidCalendarUrl `{Platform} (url : string) : outcome bool :=
  try_catch
    (parsedUrl ← new_URL url;
     Returned (includes_string
                 ["calendly.com"; "www.calendly.com"; "calendar.google.com"]
                 (hostname parsedUrl)))
    (fun _ => Returned false).

Record LinkValue : Type := mkLink { value : string }.

Definition LinkSchema `{Platform} : Schema LinkValue :=
  object1 "value"
    (refine (string_url (Some "Please enter a valid URL."))
            isValidCalendarUrl
            (Some "URL must be from calendly.com or calendar.google.com."))
    mkLink.

(** Allowed duration values (in minutes). *)
Definition allowedDurations : list JsNum := ofZ <$> [30; 60; 90; 120; 150].

Record FormValues : Type := mkForm { links : list LinkValue; duration : JsNum }.

(** The schema of the [duration] key of [FormSchema]. *)
Definition durationSchema `{Platform} : Schema JsNum :=
  refine (coerce_number (Some "Please select a duration."))
         (fun val => Returned (includes_num allowedDurations val))
         (Some "Please select a valid duration.").

Definition FormSchema `{Platform} : Schema FormValues :=
  object2
    "links" (array_min LinkSchema 2 (Some "Please provide at least two calendar links."))
    "duration" durationSchema
    mkForm.

(** The issue the refinement of [durationSchema] raises in a form. *)
Definition invalid_duration_issue : ZodIssue :=
  mkIssue custom [Key "duration"] (Some "Please select a valid duration.").

Record DurationOption : Type := mkOption { option_value : Z; option_label : string }.

(** Duration options for the Select component. *)
Definition durationOptions : list DurationOption :=
  [ mkOption 15 "15 Minutes";
    mkOption 30 "30 Minutes";
    mkOption 45 "45 Minutes";
    mkOption 60 "1 Hour";
    mkOption 75 "1 Hour 15 Minutes";
    mkOption 90 "1 Hour 30 Minutes";
    mkOption 105 "1 Hour 45 Minutes";
    mkOption 120 "2 Hours";
    mkOption 135 "2 Hours 15 Minutes";
    mkOption 150 "2 Hours 30 Minutes" ].

Definition defaultFormValues : FormValues :=
  mkForm [mkLink ""; mkLink ""] (ofZ 30).

(** The form values the resolver validates once the user has picked
    [opt] in the Select: [onValueChange] hands [parseInt(String(opt.value), 10)]
    to the field, and the other properties are whatever the form holds. *)
Definition formDataWith (links : JsValue) (opt : DurationOption) : JsValue :=
  JObj [("links", links); ("duration", JNum (ofZ (option_value opt)))].

End CalendarForm.

(** ** app/wizard/actions.ts, the server action of the wizard

    The second text of app/wizard/page.tsx: [LinkSchema] (lines 14-16),
    [FindAvailabilitySchema] (18-21), [ActionResult] (23-28) and
    [findAvailability] (30-76). *)

Module Actions.

Record LinkValue : Type := mkLink { value : string }.

Definition LinkSchema `{Platform} : Schema LinkValue :=
  object1 "value" (string_url None) mkLink.

Record FindAvailabilityData : Type := mkData { links : list LinkValue; duration : JsNum }.

Definition FindAvailabilitySchema `{Platform} : Schema FindAvailabilityData :=
  object2 "links" (array_min LinkSchema 2 None)
          "duration" number_int_positive
          mkData.

Record ActionResult : Type := mkResult {
  success : bool;
  message : option string;
  data : option JsValue;
  error : option string;
}.

(** The [links] property of the data [onSubmit] passes to the action,
    for the given link texts. *)
Definition links_value (urls : list string) : JsValue :=
  JArr ((fun u => JObj [("value", JStr u)]) <$> urls).

(** The data [onSubmit] passes to the action: the links and the duration. *)
Definition request (urls : list string) (duration : JsNum) : JsValue :=
  JObj [("links", links_value urls); ("duration", JNum duration)].

(** The same data without the [duration] property. *)
Definition request_without_duration (urls : list string) : JsValue :=
  JObj [("links", links_value urls)].

Definition findAvailability `{Platform} (formData : JsValue) : outcome ActionResult :=
  validationResult ← safeParse FindAvailabilitySchema formData;
  match validationResult with
  | ParseError _ =>
      Returned (mkResult false None None (Some "Invalid form data provided."))
  | ParseSuccess _ =>
      (* the backend call is a placeholder: the action waits and succeeds *)
      let success := true in
      if success then
        Returned (mkResult true
                    (Some "Availability check initiated successfully!") None None)
      else
        Returned (mkResult false None None
                    (Some "Failed to process calendar links. Please try again later."))
  end.

End Actions.

(** ** lib/api/clerk.ts

    [getGoogleOauthToken] (lines 12-59). *)

Module Clerk.

Record AuthData : Type := mkAuth { userId : option string }.

Record OauthAccessToken : Type := mkToken { token : string }.

Record ClerkResponse : Type := mkResponse { data : list OauthAccessToken }.

(** The calls into the Clerk SDK; each of them may throw. *)
Record Sdk (Client : Type) : Type := mkSdk {
  auth : outcome AuthData;
  clerkClient : outcome Client;
  getUserOauthAccessToken : Client → string → string → outcome ClerkResponse;
}.
Arguments auth {Client} s.
Arguments clerkClient {Client} s.
Arguments getUserOauthAccessToken {Client} s client uid provider.

Record TokenResult : Type := mkResult {
  success : bool;
  result_token : option string;
  error : option string;
}.

Definition failure (msg : string) : TokenResult := mkResult false None (Some msg).

(** [!userId] for a [string | null]. *)
Definition falsy_userId (u : option string) : bool :=
  match u with
  | None => true
  | Some s => negb (truthy_string s)
  end.

Definition getGoogleOauthToken {Client} (sdk : Sdk Client) : outcome TokenResult :=
  try_catch
    (authData ← auth sdk;
     let userId := userId authData in
     if falsy_userId userId then
       Returned (failure "User not authenticated.")
     else
       client ← clerkClient sdk;
       clerkResponse ← getUserOauthAccessToken sdk client (default "" userId) "oauth_google";
       if (length (data clerkResponse) =? 0)%nat then
         Returned (failure "Google OAuth token not found for this user.")
       else
         (* data[0].token: reading [token] of [undefined] is a TypeError *)
         googleToken ← match data clerkResponse with
                       | first :: _ => Returned (token first)
                       | [] => Thrown (TypeError "Cannot read properties of undefined")
                       end;
         if negb (truthy_string googleToken) then
           Returned (failure "Empty Google OAuth token received.")
         else
           Returned (mkResult true (Some googleToken) None))
    (fun _ => Returned (failure "Failed to retrieve Google OAuth token.")).

End Clerk.

(** ** The localStorage helpers

    The second text of lib/api/clerk.ts: [saveData] (lines 66-75) and
    [loadData] (82-98). *)

Module Storage.

(** The browser functions the helpers call. *)
Class Browser : Type := {
  (** [JSON.stringify(v)]: a string, or [undefined] ([None]) for a value
      with no JSON text; throws on a cyclic structure or a BigInt. *)
  JSON_stringify : JsValue → outcome (option string);
  (** [JSON.parse(s)]: throws a SyntaxError on malformed text. *)
  JSON_parse : string → outcome JsValue;
  (** Whether [localStorage.setItem(key, value)] throws on this store
      (quota exceeded, storage disabled). *)
  setItem_throws : gmap string string → string → string → option exn;
  (** Whether [localStorage.getItem(key)] throws on this store. *)
  getItem_throws : gmap string string → string → option exn;
}.

(** ToString of the argument handed to [setItem]. *)
Definition toStringArg (s : option string) : string := default "undefined" s.

Definition setItem `{Browser} (key value : string) (store : gmap string string) :
    outcome (gmap string string) :=
  match setItem_throws store key value with
  | Some e => Thrown e
  | None => Returned (<[key := value]> store)
  end.

Definition getItem `{Browser} (key : string) (store : gmap string string) :
    outcome (option string) :=
  match getItem_throws store key with
  | Some e => Thrown e
  | None => Returned (store !! key)
  end.

(** [window] is the store of [window.localStorage], or [None] where
    [typeof window] is ['undefined'].  The helpers return the new state of
    [window] next to their result. *)
Definition saveData `{Browser} (key : string) (data : JsValue)
    (window : option (gmap string string)) : outcome (option (gmap string string)) :=
  match window with
  | Some store =>
      try_catch
        (serializedData ← JSON_stringify data;
         store' ← setItem key (toStringArg serializedData) store;
         Returned (Some store'))
        (fun _ => Returned (Some store))
  | None => Returned None
  end.

Definition loadData `{Browser} (key : string)
    (window : option (gmap string string)) : outcome JsValue :=
  match window with
  | Some store =>
      try_catch
        (serializedData ← getItem key store;
         match serializedData with
         | None => Returned JNull
         | Some text => JSON_parse text
         end)
        (fun _ => Returned JNull)
  | None => Returned JNull
  end.

End Storage.

(** ** The availability overlap engine

    The engine is the Python backend (core/models.py,
    core/overlap_engine.py and the API layer above them); these files are
    not part of the sources at hand, so the definitions of this module
    follow the specification of the engine, section by section. *)

Module Engine.

(** Modelled from the spec: the TimeSlot of core/models.py (section 3), a
    half-open interval between two absolute UTC instants, counted in
    minutes. *)
Record TimeSlot : Type := mkSlot { slot_start : Z; slot_end : Z }.

(** Modelled from the spec: the construction check of TimeSlot
    (section 3), [start < end]. *)
Definition valid_slot (s : TimeSlot) : bool := slot_start s <? slot_end s.

(** Modelled from the spec: the AvailabilitySchedule of core/models.py
    (section 3). *)
Record AvailabilitySchedule : Type := mkSchedule {
  sourceId : string;
  slots : list TimeSlot;
  timezone : string;
}.

(** Modelled from the spec: the reasons of a FetchFailure (section 4.2). *)
Inductive FailureReason : Type :=
| Timeout
| ProviderError
| InvalidLink.

(** Modelled from the spec: the FetchFailure of section 3. *)
Record FetchFailure : Type := mkFailure {
  failed_sourceId : string;
  reason : FailureReason;
}.

(** Modelled from the spec: the error taxonomy of section 7; the
    insufficient-sources error carries the partial failure list. *)
Inductive EngineError : Type :=
| InvalidSlotError
| PreconditionViolation
| InsufficientSourcesError (failures : list FetchFailure).

(** Modelled from the spec: an operation of the engine yields its value
    or one of the errors of section 7. *)
Inductive result (A : Type) : Type :=
| Ok (a : A)
| Err (e : EngineError).
Arguments Ok {A} a.
Arguments Err {A} e.

#[global] Instance result_ret : MRet result := fun A a => Ok a.
#[global] Instance result_bind : MBind result := fun A B k m =>
  match m with
  | Ok a => k a
  | Err e => Err e
  end.
#[global] Instance result_fmap : FMap result := fun A B f m =>
  match m with
  | Ok a => Ok (f a)
  | Err e => Err e
  end.

(** Modelled from the spec: the conversion of a source-local time to UTC
    under an IANA zone id, which the backend takes from pytz. *)
Class TimeZones : Type := { toUTC : string → Z → Z }.

(** *** Schedule Normalizer (section 4.1) *)

(** Modelled from the spec: the sort of the intervals by [start] in the
    normalizer of core/overlap_engine.py, as a stable insertion sort. *)
Fixpoint insert_by_start (s : TimeSlot) (l : list TimeSlot) : list TimeSlot :=
  match l with
  | [] => [s]
  | x :: rest =>
      if slot_start s <? slot_start x then s :: l
      else x :: insert_by_start s rest
  end.

(** Modelled from the spec: see [insert_by_start]. *)
Fixpoint sort_by_start (l : list TimeSlot) : list TimeSlot :=
  match l with
  | [] => []
  | s :: rest => insert_by_start s (sort_by_start rest)
  end.

(** Modelled from the spec: the left-to-right sweep of the normalizer,
    which merges [next] into [current] when [next.start <= current.end]
    (overlapping) or [next.start == current.end] (touching). *)
Fixpoint sweep (current : TimeSlot) (rest : list TimeSlot) : list TimeSlot :=
  match rest with
  | [] => [current]
  | next :: rest' =>
      if (slot_start next <=? slot_end current) || (slot_start next =? slot_end current)
      then sweep (mkSlot (slot_start current) (Z.max (slot_end current) (slot_end next))) rest'
      else current :: sweep next rest'
  end.

(** Modelled from the spec: the sweep started at the first interval. *)
Definition merge_sorted (l : list TimeSlot) : list TimeSlot :=
  match l with
  | [] => []
  | first :: rest => sweep first rest
  end.

(** Modelled from the spec: the conversion of one raw interval to UTC. *)
Definition convert `{TimeZones} (tz : string) (raw : Z * Z) : TimeSlot :=
  mkSlot (toUTC tz raw.1) (toUTC tz raw.2).

(** Modelled from the spec: the normalizer of core/overlap_engine.py on
    intervals that are already in UTC: reject an interval with
    [start >= end], sort by [start], sweep. *)
Definition normalize_slots (l : list TimeSlot) : result (list TimeSlot) :=
  if forallb valid_slot l
  then Ok (merge_sorted (sort_by_start l))
  else Err InvalidSlotError.

(** Modelled from the spec: [normalize(sourceId, timezone, rawSlots)] of
    core/overlap_engine.py: convert to UTC under the zone of the source,
    then normalize the intervals. *)
Definition normalize `{TimeZones} (sid tz : string) (rawSlots : list (Z * Z)) :
    result AvailabilitySchedule :=
  slots ← normalize_slots (convert tz <$> rawSlots);
  Ok (mkSchedule sid slots tz).

(** Modelled from the spec: the slots of a schedule read back as raw
    intervals, which are then in UTC. *)
Definition intervals (l : list TimeSlot) : list (Z * Z) :=
  (fun s => (slot_start s, slot_end s)) <$> l.

(** Modelled from the spec: a normalized schedule handed to the
    normalizer again; its slots are UTC instants, so UTC is the zone they
    are declared in. *)
Definition renormalize `{TimeZones} (s : AvailabilitySchedule) :
    result AvailabilitySchedule :=
  slots ← normalize_slots (convert "UTC" <$> intervals (slots s));
  Ok (mkSchedule (sourceId s) slots (timezone s)).

(** Modelled from the spec: the AvailabilitySchedule invariant after
    normalization (section 3), that consecutive slots satisfy
    [slots[i].end < slots[i+1].start], as a check. *)
Fixpoint separated (l : list TimeSlot) : bool :=
  match l with
  | a :: (b :: _) as rest => (slot_end a <? slot_start b) && separated rest
  | _ => true
  end.

(** Modelled from the spec: the invariant of section 3 on consecutive
    slots, [slots[i].end < slots[i+1].start], in ascending order of
    [start]. *)
Definition adjacent_gap (l : list TimeSlot) : Prop :=
  ∀ i a b, l !! i = Some a → l !! S i = Some b →
           slot_start a < slot_start b ∧ slot_end a < slot_start b.

(** Modelled from the spec: the order of the sort, by [start]. *)
Definition by_start (a b : TimeSlot) : Prop := slot_start a ≤ slot_start b.

(** Modelled from the spec: a slot sequence that meets the invariants of
    section 3. *)
Definition normalized (l : list TimeSlot) : bool :=
  forallb valid_slot l && separated l.

(** *** Overlap Processor (section 4.3) *)

(** Modelled from the spec: the current slot of every cursor of the
    multi-pointer sweep of core/overlap_engine.py, or [None] as soon as
    one cursor is exhausted. *)
Definition current_slots (cursors : list (list TimeSlot)) : option (list TimeSlot) :=
  mapM head cursors.

(** Modelled from the spec: [candidateStart], the maximum of the current
    slots' starts. *)
Definition candidateStart (first : TimeSlot) (others : list TimeSlot) : Z :=
  foldl Z.max (slot_start first) (slot_start <$> others).

(** Modelled from the spec: [candidateEnd], the minimum of the current
    slots' ends. *)
Definition candidateEnd (first : TimeSlot) (others : list TimeSlot) : Z :=
  foldl Z.min (slot_end first) (slot_end <$> others).

(** Modelled from the spec: a cursor advances when the [end] of its slot
    equals the candidate end; all tied cursors advance together. *)
Definition advance (cEnd : Z) (cursor : list TimeSlot) : list TimeSlot :=
  match cursor with
  | s :: rest => if slot_end s =? cEnd then rest else cursor
  | [] => []
  end.

(** Modelled from the spec: the multi-pointer sweep, one step per unit
    of [fuel]; [None] when the fuel runs out before a cursor is
    exhausted, or when there is no cursor at all. *)
Fixpoint sweep_cursors (fuel : nat) (cursors : list (list TimeSlot)) :
    option (list TimeSlot) :=
  match fuel with
  | O => None
  | S fuel' =>
      match current_slots cursors with
      | None => Some []
      | Some [] => None
      | Some (first :: others) =>
          let cStart := candidateStart first others in
          let cEnd := candidateEnd first others in
          rest ← sweep_cursors fuel' (advance cEnd <$> cursors);
          Some ((if cStart <? cEnd then [mkSlot cStart cEnd] else []) ++ rest)
      end
  end.

(** Modelled from the spec: the number of slots the cursors still hold;
    every step of the sweep lowers it. *)
Definition remaining (cursors : list (list TimeSlot)) : nat :=
  sum_list (length <$> cursors).

(** Modelled from the spec: the minimum-duration filter, applied after
    the intersection: a slot with [end - start < minDuration] is dropped. *)
Definition filter_duration (minDuration : option Z) (l : list TimeSlot) : list TimeSlot :=
  match minDuration with
  | None => l
  | Some d => List.filter (fun s => negb (slot_end s - slot_start s <? d)) l
  end.

(** Modelled from the spec: [intersect(schedules, minDuration?)] of the
    OverlapProcessor: zero schedules or a schedule that is not normalized
    is a PreconditionViolation. *)
Definition intersect (schedules : list AvailabilitySchedule) (minDuration : option Z) :
    result (list TimeSlot) :=
  match schedules with
  | [] => Err PreconditionViolation
  | _ =>
      if forallb (fun s => normalized (slots s)) schedules then
        let cursors := slots <$> schedules in
        match sweep_cursors (S (remaining cursors)) cursors with
        | Some common => Ok (filter_duration minDuration common)
        | None => Err PreconditionViolation
        end
      else Err PreconditionViolation
  end.

(** *** Source Fetcher (section 4.2) *)

(** Modelled from the spec: the provider kinds of a calendar link. *)
Inductive ProviderKind : Type :=
| calendly
| google.

(** Modelled from the spec: the CalendarLink of section 4.2. *)
Record CalendarLink : Type := mkLink {
  link_sourceId : string;
  providerKind : ProviderKind;
  locator : string;
}.

(** Modelled from the spec: the classes of a provider error (section 6). *)
Inductive ProviderFault : Type :=
| network
| auth
| malformed_link.

(** Modelled from the spec: what one bounded call of the capability
    [retrieve(locator)] comes to: the raw slots with their zone, a
    classified provider error, or no answer within the timeout. *)
Inductive Retrieval : Type :=
| Retrieved (tz : string) (rawSlots : list (Z * Z))
| Faulted (fault : ProviderFault)
| TimedOut.

(** Modelled from the spec: the injected AvailabilityProvider capability,
    called with a locator and the per-source timeout. *)
Definition AvailabilityProvider : Type := string → Z → Retrieval.

(** Modelled from the spec: the FetchOutcome of section 3. *)
Inductive FetchOutcome : Type :=
| Fetched (schedule : AvailabilitySchedule)
| Failed (failure : FetchFailure).

(** Modelled from the spec: the task of one link: retrieve, classify a
    failure, normalize a success; an InvalidSlotError of the normalizer
    is reported as an invalid link (section 7). *)
Definition fetch_one `{TimeZones} (provider : AvailabilityProvider) (perSourceTimeout : Z)
    (link : CalendarLink) : FetchOutcome :=
  match provider (locator link) perSourceTimeout with
  | Retrieved tz rawSlots =>
      match normalize (link_sourceId link) tz rawSlots with
      | Ok schedule => Fetched schedule
      | Err _ => Failed (mkFailure (link_sourceId link) InvalidLink)
      end
  | Faulted malformed_link => Failed (mkFailure (link_sourceId link) InvalidLink)
  | Faulted _ => Failed (mkFailure (link_sourceId link) ProviderError)
  | TimedOut => Failed (mkFailure (link_sourceId link) Timeout)
  end.

(** Modelled from the spec: the completion of task [i], which writes the
    outcome of [links[i]] into its own place of the result sequence
    (section 5). *)
Definition complete `{TimeZones} (provider : AvailabilityProvider) (perSourceTimeout : Z)
    (links : list CalendarLink) (results : list (option FetchOutcome)) (i : nat) :
    list (option FetchOutcome) :=
  match links !! i with
  | Some link => <[i := Some (fetch_one provider perSourceTimeout link)]> results
  | None => results
  end.

(** Modelled from the spec: [fetch(links, perSourceTimeout)] of the
    Fetcher.  The tasks run concurrently; [completion] lists the task
    indices in the order in which they finish.  The join reads the result
    sequence once every place is filled ([None] while one is not). *)
Definition fetch `{TimeZones} (provider : AvailabilityProvider) (completion : list nat)
    (links : list CalendarLink) (perSourceTimeout : Z) : option (list FetchOutcome) :=
  mapM id (foldl (complete provider perSourceTimeout links)
                 (replicate (length links) None) completion).

(** Modelled from the spec: the source an outcome speaks of. *)
Definition outcome_sourceId (o : FetchOutcome) : string :=
  match o with
  | Fetched schedule => sourceId schedule
  | Failed failure => failed_sourceId failure
  end.

(** *** Overlap Service (section 4.4) *)

(** Modelled from the spec: the OverlapResult of section 3. *)
Record OverlapResult : Type := mkOverlap {
  common_slots : list TimeSlot;
  failures : list FetchFailure;
}.

(** Modelled from the spec: the successes of a sequence of outcomes. *)
Definition successes (outcomes : list FetchOutcome) : list AvailabilitySchedule :=
  omap (fun o => match o with Fetched s => Some s | Failed _ => None end) outcomes.

(** Modelled from the spec: the failures of a sequence of outcomes. *)
Definition failures_of (outcomes : list FetchOutcome) : list FetchFailure :=
  omap (fun o => match o with Failed f => Some f | Fetched _ => None end) outcomes.

(** Modelled from the spec: the Overlap Service after the fetch:
    partition, the threshold of two successes, the intersection. *)
Definition overlap_of (outcomes : list FetchOutcome) (minDuration : option Z) :
    result OverlapResult :=
  if (length (successes outcomes) <? 2)%nat then
    Err (InsufficientSourcesError (failures_of outcomes))
  else
    match intersect (successes outcomes) minDuration with
    | Ok common => Ok (mkOverlap common (failures_of outcomes))
    | Err e => Err e
    end.

(** Modelled from the spec:
    [computeOverlap(links, minDuration?, perSourceTimeout)] of the
    Overlap Service; [None] only while the join of the fetch has not
    happened. *)
Definition computeOverlap `{TimeZones} (provider : AvailabilityProvider)
    (completion : list nat) (links : list CalendarLink) (minDuration : option Z)
    (perSourceTimeout : Z) : option (result OverlapResult) :=
  outcomes ← fetch provider completion links perSourceTimeout;
  Some (overlap_of outcomes minDuration).

End Engine.
Import Engine.

(** ** Concrete platforms

    Small instances of the platform interfaces, on which the definitions
    above are run on concrete inputs. *)

Module Samples.

(** The text of [s] after the prefix [p], when [s] starts with [p]. *)
Fixpoint strip_prefix (p s : string) : option string :=
  match p, s with
  | EmptyString, _ => Some s
  | String a p', String b s' => if Ascii.eqb a b then strip_prefix p' s' else None
  | _, EmptyString => None
  end.

(** The text of [s] before the first ['/']. *)
Fixpoint until_slash (s : string) : string :=
  match s with
  | EmptyString => EmptyString
  | String c s' => if Ascii.eqb c "/"%char then EmptyString else String c (until_slash s')
  end.

(** A URL parser for the texts [http://host/...] and [https://host/...]
    with a non-empty host; every other text is rejected. *)
Definition parse_url (s : string) : outcome URL :=
  let after :=
    match strip_prefix "https://" s with
    | Some r => Some r
    | None => strip_prefix "http://" s
    end in
  match after with
  | Some r =>
      if String.eqb (until_slash r) "" then Thrown (TypeError "Invalid URL")
      else Returned (mkURL (until_slash r))
  | None => Thrown (TypeError "Invalid URL")
  end.

(** Decimal digits read as a natural number. *)
Fixpoint digits (acc : Z) (s : string) : option Z :=
  match s with
  | EmptyString => Some acc
  | String c s' =>
      let n := Z.of_nat (Ascii.nat_of_ascii c) - 48 in
      if (0 <=? n) && (n <=? 9) then digits (10 * acc + n) s' else None
  end.

Definition platform : Platform := {|
  new_URL := parse_url;
  StringToNumber := fun s =>
    match s with
    | EmptyString => ofZ 0
    | _ => match digits 0 s with Some z => ofZ z | None => NaN end
    end;
  ObjectToNumber := fun _ => NaN;
|}.

(** Zones at a fixed offset from UTC, in minutes. *)
Definition zones : Engine.TimeZones := {|
  Engine.toUTC := fun tz t =>
    if String.eqb tz "UTC" then t
    else if String.eqb tz "America/New_York" then t + 300
    else if String.eqb tz "Europe/Paris" then t - 60
    else t
|}.

(** A browser whose JSON functions cover [null] and the booleans and
    whose storage never throws. *)
Definition browser : Storage.Browser := {|
  Storage.JSON_stringify := fun v =>
    match v with
    | JNull => Returned (Some "null")
    | JBool true => Returned (Some "true")
    | JBool false => Returned (Some "false")
    | JUndefined => Returned None
    | _ => Thrown (TypeError "unsupported value")
    end;
  Storage.JSON_parse := fun s =>
    if String.eqb s "null" then Returned JNull
    else if String.eqb s "true" then Returned (JBool true)
    else if String.eqb s "false" then Returned (JBool false)
    else Thrown (SyntaxError "Unexpected token");
  Storage.setItem_throws := fun _ _ _ => None;
  Storage.getItem_throws := fun _ _ => None;
|}.

(** A provider that answers from a table of locators. *)
Definition provider : Engine.AvailabilityProvider := fun loc _ =>
  if String.eqb loc "https://calendly.com/ann" then Engine.Retrieved "UTC" [(540, 720)]
  else if String.eqb loc "https://calendly.com/bob" then
    Engine.Retrieved "UTC" [(690, 780); (600, 660)]
  else if String.eqb loc "https://calendar.google.com/cat" then Engine.TimedOut
  else if String.eqb loc "https://calendly.com/dan" then Engine.Retrieved "UTC" [(600, 600)]
  else Engine.Faulted Engine.malformed_link.

End Samples.

(** ** calendar-form.tsx: the component

    The state the component [CalendarForm] keeps through [useForm] and
    [useFieldArray] (lines 88-99), the controls it renders (lines
    128-233) and [onSubmit] (lines 105-126). *)

Module FormControls.

(** The values of the form: the text of each link field and the value of
    the duration field. *)
Record FormState : Type := mkState {
  link_fields : list string;
  duration_field : JsValue;
}.

(** [useForm({ defaultValues: defaultFormValues })] *)
Definition initial : FormState :=
  mkState (CalendarForm.value <$> CalendarForm.links CalendarForm.defaultFormValues)
          (JNum (CalendarForm.duration CalendarForm.defaultFormValues)).

(** What the user can do with the rendered form. *)
Inductive Control : Type :=
| AddAnotherLink
| RemoveLink (index : nat)
| TypeLink (index : nat) (text : string)
| SelectDuration (opt : CalendarForm.DurationOption).

Definition same_option (a b : CalendarForm.DurationOption) : bool :=
  (CalendarForm.option_value a =? CalendarForm.option_value b) &&
  String.eqb (CalendarForm.option_label a) (CalendarForm.option_label b).

(** Whether the form renders the control: one input per field, the
    remove button where [index >= 2], one item per duration option, and
    the button that adds a link. *)
Definition rendered (st : FormState) (c : Control) : bool :=
  match c with
  | AddAnotherLink => true
  | RemoveLink index => (2 <=? index)%nat && (index <? length (link_fields st))%nat
  | TypeLink index _ => (index <? length (link_fields st))%nat
  | SelectDuration opt => existsb (same_option opt) CalendarForm.durationOptions
  end.

(** The handler of a control: [append({ value: "" })], [remove(index)],
    the change of an input, and [onValueChange], which stores
    [parseInt(String(option.value), 10)]. *)
Definition handle (st : FormState) (c : Control) : FormState :=
  if rendered st c then
    match c with
    | AddAnotherLink => mkState (link_fields st ++ [""]) (duration_field st)
    | RemoveLink index => mkState (delete index (link_fields st)) (duration_field st)
    | TypeLink index text => mkState (<[index := text]> (link_fields st)) (duration_field st)
    | SelectDuration opt =>
        mkState (link_fields st) (JNum (ofZ (CalendarForm.option_value opt)))
    end
  else st.

(** The state after a sequence of controls, starting from the default
    values. *)
Definition after (controls : list Control) : FormState :=
  foldl handle initial controls.

(** The values handed to the resolver. *)
Definition values (st : FormState) : JsValue :=
  JObj [("links", Actions.links_value (link_fields st)); ("duration", duration_field st)].

(** The validated data as the call of the server action carries it. *)
Definition payload (data : CalendarForm.FormValues) : JsValue :=
  Actions.request (CalendarForm.value <$> CalendarForm.links data)
                  (CalendarForm.duration data).

Inductive Toast : Type :=
| toast_success (text : string)
| toast_error (text : string).

Definition toast_text (t : Toast) : string :=
  match t with
  | toast_success text => text
  | toast_error text => text
  end.

(** [field || fallback] for an optional string. *)
Definition or_else (field : option string) (fallback : string) : string :=
  match field with
  | Some text => if truthy_string text then text else fallback
  | None => fallback
  end.

(** [onSubmit(data)]; [action] is the imported server action as the
    client calls it, so a failure of the call itself is a throw. *)
Definition onSubmit (action : JsValue → outcome Actions.ActionResult)
    (data : CalendarForm.FormValues) : outcome Toast :=
  try_catch
    (result ← action (payload data);
     if Actions.success result then
       Returned (toast_success
                   (or_else (Actions.message result) "Availability check started!"))
     else
       Returned (toast_error
                   (or_else (Actions.error result) "An unknown error occurred.")))
    (fun _ => Returned (toast_error "Failed to communicate with the server.")).

(** [form.handleSubmit(onSubmit)]: the resolver validates the values and
    [onSubmit] runs on the parsed data only; [None] when it does not run. *)
Definition handleSubmit `{Platform} (action : JsValue → outcome Actions.ActionResult)
    (st : FormState) : outcome (option Toast) :=
  validation ← safeParse CalendarForm.FormSchema (values st);
  match validation with
  | ParseSuccess data => Some <$> onSubmit action data
  | ParseError _ => Returned None
  end.

(** What every state of the form satisfies: two link fields or more,
    and a duration taken from the options. *)
Definition form_invariant (st : FormState) : Prop :=
  (2 ≤ length (link_fields st))%nat ∧
  ∃ opt, opt ∈ CalendarForm.durationOptions ∧
         duration_field st = JNum (ofZ (CalendarForm.option_value opt)).

End FormControls.

(** ** The localStorage helpers: removal

    The second text of lib/api/clerk.ts: [removeData] (lines 104-111). *)

Module Removal.

(** Whether [localStorage.removeItem(key)] throws on this store. *)
Class RemoveItem : Type := {
  removeItem_throws : gmap string string → string → option exn;
}.

Definition removeItem `{RemoveItem} (key : string) (store : gmap string string) :
    outcome (gmap string string) :=
  match removeItem_throws store key with
  | Some e => Thrown e
  | None => Returned (delete key store)
  end.

Definition removeData `{RemoveItem} (key : string)
    (window : option (gmap string string)) : outcome (option (gmap string string)) :=
  match window with
  | Some store =>
      try_catch
        (store' ← removeItem key store;
         Returned (Some store'))
        (fun _ => Returned (Some store))
  | None => Returned None
  end.

(** A store whose [removeItem] never throws. *)
Definition quiet : RemoveItem := {| removeItem_throws := fun _ _ => None |}.

End Removal.

(** ** What the schemas let through *)

Module Accepted.

(** An item of the [links] array as the schema of the action accepts it:
    an object whose [value] is a string that [new URL] parses. *)
Definition url_link `{Platform} (item : JsValue) (text : string) : Prop :=
  ∃ props u, item = JObj props ∧ getProp "value" props = JStr text ∧
             new_URL text = Returned u.

(** An item of the [links] array as the schema of the form accepts it:
    the parsed URL has one of the calendar hostnames as well. *)
Definition calendar_link `{Platform} (item : JsValue) (text : string) : Prop :=
  ∃ props u, item = JObj props ∧ getProp "value" props = JStr text ∧
             new_URL text = Returned u ∧ CalendarForm.calendar_host (hostname u).

(** The same, between an item and the parsed link. *)
Definition form_link_rel `{Platform} (item : JsValue) (l : CalendarForm.LinkValue) : Prop :=
  calendar_link item (CalendarForm.value l).

Definition action_link_rel `{Platform} (item : JsValue) (l : Actions.LinkValue) : Prop :=
  url_link item (Actions.value l).

(** The two answers of the server action. *)
Definition accepted : Actions.ActionResult :=
  Actions.mkResult true (Some "Availability check initiated successfully!") None None.

Definition rejected : Actions.ActionResult :=
  Actions.mkResult false None None (Some "Invalid form data provided.").

(** The texts the form schema attaches to its issues (calendar-form.tsx,
    lines 47, 49, 57, 59 and 61). *)
Definition url_message : string := "Please enter a valid URL.".
Definition host_message : string := "URL must be from calendly.com or calendar.google.com.".
Definition two_links_message : string := "Please provide at least two calendar links.".
Definition duration_message : string := "Please select a duration.".
Definition valid_duration_message : string := "Please select a valid duration.".

(** An issue of a link field. *)
Definition link_message (i : ZodIssue) : Prop :=
  message i = Some url_message ∨ message i = Some host_message.

End Accepted.

(** ** The server action on an argument with accessor properties

    [findAvailability] takes [formData: unknown] (app/wizard/page.tsx,
    line 30).  Data as a server action receives them hold data properties
    only, and reading those never throws; an object built in the same
    process may hold accessor properties, whose getter runs, and may
    throw, when zod reads the property. *)

Module Accessors.

(** A property of an object: a value, or a getter with its completion. *)
Inductive Property : Type :=
| DataProperty (v : JsValue)
| AccessorProperty (get : outcome JsValue).

(** The argument of the action: plain data, or an object some of whose
    properties are accessors. *)
Inductive Argument : Type :=
| PlainData (v : JsValue)
| ObjectWith (props : list (string * Property)).

(** [obj[key]]: the value of a data property, the completion of the
    getter of an accessor, [undefined] when the property is absent. *)
Fixpoint readProp (key : string) (props : list (string * Property)) : outcome JsValue :=
  match props with
  | [] => Returned JUndefined
  | (k, prop) :: rest =>
      if String.eqb k key then
        match prop with
        | DataProperty v => Returned v
        | AccessorProperty get => get
        end
      else readProp key rest
  end.

(** [z.object({ k1 : s1, k2 : s2 })] on such an argument.  To tell the
    type of an object zod reads its [then] property; then each key of the
    shape is read and parsed, in the order of the shape.  The values read
    are plain data, none of them a function. *)
Definition object2 {A B R} (k1 : string) (s1 : Schema A) (k2 : string) (s2 : Schema B)
    (mk : A → B → R) (p : list PathSeg) (arg : Argument) : outcome (ParseReturn R) :=
  match arg with
  | PlainData v => Zod.object2 k1 s1 k2 s2 mk p v
  | ObjectWith props =>
      _ ← readProp "then" props;
      v1 ← readProp k1 props;
      r1 ← s1 (p ++ [Key k1]) v1;
      v2 ← readProp k2 props;
      r2 ← s2 (p ++ [Key k2]) v2;
      Returned (mkParse (issues r1 ++ issues r2)
                  (match output r1, output r2 with
                   | Some a, Some b => Some (mk a b)
                   | _, _ => None
                   end))
  end.

(** [schema.safeParse(data)]: an exception thrown while the data are read
    is not caught. *)
Definition safeParse {T} (s : list PathSeg → Argument → outcome (ParseReturn T))
    (data : Argument) : outcome (SafeParseReturn T) :=
  r ← s [] data;
  Returned (match issues r, output r with
            | [], Some x => ParseSuccess x
            | _, _ => ParseError (issues r)
            end).

Definition FindAvailabilitySchema `{Platform} :
    list PathSeg → Argument → outcome (ParseReturn Actions.FindAvailabilityData) :=
  object2 "links" (array_min Actions.LinkSchema 2 None)
          "duration" number_int_positive
          Actions.mkData.

(** [findAvailability] (app/wizard/page.tsx, lines 30-76): no statement
    of its body is inside a try/catch. *)
Definition findAvailability `{Platform} (formData : Argument) :
    outcome Actions.ActionResult :=
  validationResult ← safeParse FindAvailabilitySchema formData;
  match validationResult with
  | ParseError _ =>
      Returned (Actions.mkResult false None None (Some "Invalid form data provided."))
  | ParseSuccess _ =>
      let success := true in
      if success then
        Returned (Actions.mkResult true
                    (Some "Availability check initiated successfully!") None None)
      else
        Returned (Actions.mkResult false None None
                    (Some "Failed to process calendar links. Please try again later."))
  end.

(** The argument [{ get links() { throw new Error("boom") } }]. *)
Definition throwing_links : Argument :=
  ObjectWith [("links", AccessorProperty (Thrown (OtherError "boom")))].

End Accessors.

(** ** A browser whose storage is full *)

Module FullStorage.

(** The JSON functions of [Samples.browser], and a [setItem] that throws
    the QuotaExceededError of a full store on every call. *)
Definition browser : Storage.Browser := {|
  Storage.JSON_stringify := @Storage.JSON_stringify Samples.browser;
  Storage.JSON_parse := @Storage.JSON_parse Samples.browser;
  Storage.setItem_throws := fun _ _ _ => Some (DOMException "QuotaExceededError");
  Storage.getItem_throws := fun _ _ => None;
|}.

End FullStorage.

(** * Properties *)

(** ** Completions *)

Section Completions.
Context {A B : Type}.

Lemma bind_Returned (m : outcome A) (k : A → outcome B) (b : B) :
  m ≫= k = Returned b → ∃ a, m = Returned a ∧ k a = Returned b.
Proof. destruct m as [a|e]; simpl; [eauto | discriminate]. Qed.

Lemma returns_bind (m : outcome A) (k : A → outcome B) :
  returns m → (∀ a, returns (k a)) → returns (m ≫= k).
Proof. intros [a ->] Hk. apply Hk. Qed.

Lemma try_catch_returns (body : outcome A) (handler : exn → outcome A) :
  (∀ e, returns (handler e)) → returns (try_catch body handler).
Proof. intros Hh. destruct body as [a|e]; simpl; [by exists a | apply Hh]. Qed.
End Completions.

(** ** The schemas never throw *)

Section SchemasReturn.
Context `{Platform}.

Lemma isValidCalendarUrl_returns (url : string) :
  returns (CalendarForm.isValidCalendarUrl url).
Proof.
  unfold CalendarForm.isValidCalendarUrl.
  apply try_catch_returns. intros _. by eexists.
Qed.

Lemma string_url_returns msg p v : returns (string_url msg p v).
Proof.
  unfold string_url. destruct v; try by eexists.
  destruct (new_URL s); by eexists.
Qed.

Lemma refine_returns {T} (inner : Schema T) check msg p v :
  returns (inner p v) → (∀ x, returns (check x)) → returns (refine inner check msg p v).
Proof.
  intros [r Hr] Hc. unfold refine. rewrite Hr. simpl.
  destruct (output r) as [x|]; [|by eexists].
  destruct (Hc x) as [b ->]. simpl. by eexists.
Qed.

Lemma refine_clean {T} (inner : Schema T) check msg p v r x :
  refine inner check msg p v = Returned r → issues r = [] → output r = Some x →
  check x = Returned true.
Proof.
  unfold refine. intros Hr Hi Ho.
  apply bind_Returned in Hr as (r0 & _ & Hr).
  destruct (output r0) as [y|] eqn:Hy.
  - apply bind_Returned in Hr as (ok & Hok & Hr). injection Hr as <-.
    destruct ok.
    + rewrite Hy in Ho. by injection Ho as ->.
    + simpl in Hi. by destruct (issues r0).
  - injection Hr as <-. rewrite Hy in Ho. discriminate.
Qed.

Lemma parse_items_returns {T} (elem : Schema T) p i items :
  (∀ q v, returns (elem q v)) → returns (parse_items elem p i items).
Proof.
  intros He. revert i. induction items as [|v rest IH]; intros i; simpl.
  - by eexists.
  - destruct (He (p ++ [Idx i]) v) as [r ->]. simpl.
    destruct (IH (S i)) as [rs ->]. simpl. by eexists.
Qed.

Lemma array_min_returns {T} (elem : Schema T) n msg p v :
  (∀ q w, returns (elem q w)) → returns (array_min elem n msg p v).
Proof.
  intros He. unfold array_min. destruct v; try by eexists.
  destruct (parse_items_returns elem p 0 items He) as [rs ->]. simpl. by eexists.
Qed.

Lemma object1_returns {T R} k (s : Schema T) (mk : T → R) p v :
  (∀ q w, returns (s q w)) → returns (object1 k s mk p v).
Proof.
  intros Hs. unfold object1, field. destruct v; try by eexists.
  destruct (Hs (p ++ [Key k]) (getProp k props)) as [r ->]. simpl. by eexists.
Qed.

Lemma number_int_positive_returns p v : returns (number_int_positive p v).
Proof.
  unfold number_int_positive. destruct v as [| | |n| | |]; try by eexists.
  destruct n; by eexists.
Qed.

Lemma coerce_number_returns msg p v : returns (coerce_number msg p v).
Proof. unfold coerce_number. destruct (Number v); by eexists. Qed.

Lemma form_LinkSchema_returns p v : returns (CalendarForm.LinkSchema p v).
Proof.
  apply object1_returns. intros q w. apply refine_returns.
  - apply string_url_returns.
  - apply isValidCalendarUrl_returns.
Qed.

Lemma action_LinkSchema_returns p v : returns (Actions.LinkSchema p v).
Proof. apply object1_returns. intros q w. apply string_url_returns. Qed.

Lemma safeParse_returns {T} (s : Schema T) v :
  returns (s [] v) → returns (safeParse s v).
Proof. intros [r Hr]. unfold safeParse. rewrite Hr. simpl. by eexists. Qed.

Lemma FindAvailabilitySchema_returns p v :
  returns (Actions.FindAvailabilitySchema p v).
Proof.
  unfold Actions.FindAvailabilitySchema, object2, field.
  destruct v; try by eexists.
  destruct (array_min_returns Actions.LinkSchema 2 None (p ++ [Key "links"])
              (getProp "links" props) action_LinkSchema_returns) as [r1 ->].
  simpl.
  destruct (number_int_positive_returns (p ++ [Key "duration"])
              (getProp "duration" props)) as [r2 ->].
  simpl. by eexists.
Qed.
End SchemasReturn.

(** ** calendar-form.tsx: the host check *)

Section HostCheck.
Context `{Platform}.

Lemma includes_calendar_host (h : string) :
  includes_string ["calendly.com"; "www.calendly.com"; "calendar.google.com"] h = true
  ↔ CalendarForm.calendar_host h.
Proof.
  unfold includes_string, CalendarForm.calendar_host. simpl.
  rewrite !orb_true_iff, !String.eqb_eq. intuition discriminate.
Qed.

(** C10. [isValidCalendarUrl] returns on every string and never throws;
    it returns [true] exactly when the string parses as a URL whose
    hostname is one of "calendly.com", "www.calendly.com" and
    "calendar.google.com".  Hence a string that does not parse yields
    [false], and so does a URL whose hostname differs from the three
    names, whatever it contains. *)
Theorem isValidCalendarUrl_exact_hosts (url : string) :
  ∃ b : bool,
    CalendarForm.isValidCalendarUrl url = Returned b ∧
    (b = true ↔ ∃ u, new_URL url = Returned u ∧ CalendarForm.calendar_host (hostname u)) ∧
    (∀ e, new_URL url = Thrown e → b = false) ∧
    (∀ u, new_URL url = Returned u → ¬ CalendarForm.calendar_host (hostname u) → b = false).
Proof.
  unfold CalendarForm.isValidCalendarUrl.
  destruct (new_URL url) as [u|e] eqn:Hu; unfold mbind, outcome_bind, try_catch.
  - eexists; split; [reflexivity|]. split; [|split].
    + rewrite includes_calendar_host. split.
      * intros Hh. by exists u.
      * intros (u' & Heq & Hh). by inversion Heq; subst.
    + intros e He. discriminate.
    + intros u' Heq Hn. inversion Heq; subst u'.
      apply not_true_is_false. by rewrite includes_calendar_host.
  - exists false. split; [reflexivity|]. split; [|split].
    + split; [discriminate|]. intros (u & Heq & _). discriminate.
    + done.
    + intros u Heq. discriminate.
Qed.
End HostCheck.

(** The host check on concrete links. *)
Example host_check_examples :
  let valid := @CalendarForm.isValidCalendarUrl Samples.platform in
  valid "https://calendly.com/user/meeting" = Returned true ∧
  valid "https://www.calendly.com/user" = Returned true ∧
  valid "https://calendar.google.com/calendar/u/0" = Returned true ∧
  valid "https://app.calendly.com/user" = Returned false ∧
  valid "https://calendly.com.example.org/user" = Returned false ∧
  valid "https://example.org/calendly.com" = Returned false ∧
  valid "calendly.com/user" = Returned false ∧
  valid "" = Returned false.
Proof. repeat split. Qed.

(** ** calendar-form.tsx: the duration field *)

Section DurationField.
Context `{Platform}.

Lemma form_links_returns p v :
  returns (array_min CalendarForm.LinkSchema 2
             (Some "Please provide at least two calendar links.") p v).
Proof. apply array_min_returns. intros q w. apply form_LinkSchema_returns. Qed.

Lemma FormSchema_unfold props :
  CalendarForm.FormSchema [] (JObj props) =
    (r1 ← array_min CalendarForm.LinkSchema 2
            (Some "Please provide at least two calendar links.")
            [Key "links"] (getProp "links" props);
     r2 ← CalendarForm.durationSchema [Key "duration"] (getProp "duration" props);
     Returned (mkParse (issues r1 ++ issues r2)
                 (match output r1, output r2 with
                  | Some a, Some b => Some (CalendarForm.mkForm a b)
                  | _, _ => None
                  end))).
Proof. reflexivity. Qed.

Lemma durationSchema_number p v n :
  Number v = n → n ≠ NaN →
  CalendarForm.durationSchema p v =
    Returned (if includes_num CalendarForm.allowedDurations n
              then mkParse [] (Some n)
              else mkParse [mkIssue custom p (Some "Please select a valid duration.")]
                           (Some n)).
Proof.
  intros Hn Hnan. unfold CalendarForm.durationSchema, refine, coerce_number. rewrite Hn.
  destruct n; try done; simpl;
    by destruct (includes_num CalendarForm.allowedDurations _).
Qed.

Lemma durationSchema_output p v r n :
  CalendarForm.durationSchema p v = Returned r → output r = Some n → issues r = [] →
  includes_num CalendarForm.allowedDurations n = true.
Proof.
  intros Hr Ho Hi. unfold CalendarForm.durationSchema in Hr.
  by injection (refine_clean _ _ _ _ _ _ _ Hr Hi Ho).
Qed.

(** C8. The dropdown offers the ten values 15, 30, ..., 150, while the
    form schema accepts a duration only when it is one of 30, 60, 90,
    120, 150.  Hence for each offered value among 15, 45, 75, 105, 135,
    validation of the form data fails, and the error carries the issue
    "Please select a valid duration." at the duration field. *)
Theorem offered_durations_rejected (props : list (string * JsValue)) (d : Z) :
  d ∈ [15; 45; 75; 105; 135] →
  Number (getProp "duration" props) = ofZ d →
  CalendarForm.option_value <$> CalendarForm.durationOptions
    = [15; 30; 45; 60; 75; 90; 105; 120; 135; 150] ∧
  d ∈ CalendarForm.option_value <$> CalendarForm.durationOptions ∧
  (∃ errs, safeParse CalendarForm.FormSchema (JObj props) = Returned (ParseError errs) ∧
           CalendarForm.invalid_duration_issue ∈ errs) ∧
  (∀ v data, safeParse CalendarForm.FormSchema v = Returned (ParseSuccess data) →
             includes_num CalendarForm.allowedDurations (CalendarForm.duration data) = true).
Proof.
  intros Hd Hnum. split; [reflexivity|]. split.
  { change (d ∈ [15; 30; 45; 60; 75; 90; 105; 120; 135; 150]).
    rewrite !elem_of_cons in Hd. rewrite !elem_of_cons. tauto. }
  split.
  - unfold safeParse. rewrite FormSchema_unfold.
    destruct (form_links_returns [Key "links"] (getProp "links" props)) as [r1 ->].
    simpl.
    rewrite (durationSchema_number _ _ (ofZ d) Hnum) by done.
    assert (includes_num CalendarForm.allowedDurations (ofZ d) = false) as ->.
    { repeat (apply elem_of_cons in Hd as [-> | Hd]; [reflexivity|]).
      by apply elem_of_nil in Hd. }
    simpl. exists (issues r1 ++ [CalendarForm.invalid_duration_issue]). split.
    + destruct (issues r1); simpl; [reflexivity|].
      by destruct (output r1).
    + apply elem_of_app. right. by apply list_elem_of_singleton.
  - intros v data. unfold safeParse. intros Hp.
    apply bind_Returned in Hp as (r & Hr & Hp).
    destruct v; try (simpl in Hr; injection Hr as <-; simpl in Hp; discriminate).
    rewrite FormSchema_unfold in Hr.
    apply bind_Returned in Hr as (r1 & Hr1 & Hr).
    apply bind_Returned in Hr as (r2 & Hr2 & Hr).
    injection Hr as <-. simpl in Hp.
    destruct (issues r1 ++ issues r2) eqn:Hi; [|discriminate].
    apply app_eq_nil in Hi as [_ Hi2].
    destruct (output r1); [|discriminate].
    destruct (output r2) as [n|] eqn:Ho; [|discriminate].
    injection Hp as <-. simpl. by eapply durationSchema_output.
Qed.
End DurationField.

Lemma offered_durations_rejected_witness :
  ∃ errs,
    safeParse (@CalendarForm.FormSchema Samples.platform)
      (CalendarForm.formDataWith
         (Actions.links_value ["https://calendly.com/ann"; "https://calendly.com/bob"])
         (CalendarForm.mkOption 45 "45 Minutes"))
    = Returned (ParseError errs) ∧
    CalendarForm.invalid_duration_issue ∈ errs.
Proof.
  apply (@offered_durations_rejected Samples.platform
           [("links", Actions.links_value
                        ["https://calendly.com/ann"; "https://calendly.com/bob"]);
            ("duration", JNum (ofZ 45))] 45).
  - apply elem_of_cons. right. apply elem_of_cons. by left.
  - reflexivity.
Defined.

(** ** What a successful validation tells about the input *)

Section CleanParses.
Context `{Platform}.

Lemma safeParse_success {T} (s : Schema T) v d :
  safeParse s v = Returned (ParseSuccess d) →
  ∃ r, s [] v = Returned r ∧ issues r = [] ∧ output r = Some d.
Proof.
  unfold safeParse. intros Hp. apply bind_Returned in Hp as (r & Hr & Hp).
  exists r. split; [done|].
  destruct (issues r); [|discriminate].
  destruct (output r); [|discriminate].
  by injection Hp as ->.
Qed.

Lemma safeParse_error {T} (s : Schema T) v r :
  s [] v = Returned r → issues r ≠ [] →
  safeParse s v = Returned (ParseError (issues r)).
Proof.
  unfold safeParse. intros -> Hi. simpl. by destruct (issues r).
Qed.

Lemma array_min_clean {T} (elem : Schema T) n msg p v r :
  array_min elem n msg p v = Returned r → issues r = [] →
  ∃ items, v = JArr items ∧ (n ≤ length items)%nat.
Proof.
  unfold array_min. intros Hr Hi.
  destruct v; try (injection Hr as <-; discriminate).
  apply bind_Returned in Hr as (rs & _ & Hr). injection Hr as <-.
  exists items. split; [done|]. simpl in Hi.
  destruct (length items <? n)%nat eqn:Hlt; [discriminate|].
  by apply Nat.ltb_ge.
Qed.

Lemma parse_items_length {T} (elem : Schema T) p i items r xs :
  parse_items elem p i items = Returned r → output r = Some xs →
  length xs = length items.
Proof.
  revert i r xs. induction items as [|v rest IH]; intros i r xs; simpl.
  - intros [= <-] [= <-]. done.
  - intros Hr Ho. apply bind_Returned in Hr as (r1 & _ & Hr).
    apply bind_Returned in Hr as (rs & Hrs & Hr). injection Hr as <-.
    simpl in Ho. destruct (output r1); [|discriminate].
    destruct (output rs) as [ys|] eqn:Hys; [|discriminate].
    injection Ho as <-. simpl. f_equal. by eapply IH.
Qed.

Lemma array_min_length {T} (elem : Schema T) n msg p items r xs :
  array_min elem n msg p (JArr items) = Returned r → output r = Some xs →
  length xs = length items.
Proof.
  unfold array_min. intros Hr Ho.
  apply bind_Returned in Hr as (rs & Hrs & Hr). injection Hr as <-.
  by eapply parse_items_length.
Qed.

Lemma object2_clean {A B R} k1 (s1 : Schema A) k2 (s2 : Schema B) (mk : A → B → R)
    p v r d :
  object2 k1 s1 k2 s2 mk p v = Returned r → issues r = [] → output r = Some d →
  ∃ props r1 r2 a b,
    v = JObj props ∧
    s1 (p ++ [Key k1]) (getProp k1 props) = Returned r1 ∧ issues r1 = [] ∧
    output r1 = Some a ∧
    s2 (p ++ [Key k2]) (getProp k2 props) = Returned r2 ∧ issues r2 = [] ∧
    output r2 = Some b ∧ d = mk a b.
Proof.
  unfold object2, field. intros Hr Hi Ho.
  destruct v; try (injection Hr as <-; discriminate).
  apply bind_Returned in Hr as (r1 & Hr1 & Hr).
  apply bind_Returned in Hr as (r2 & Hr2 & Hr). injection Hr as <-.
  simpl in Hi, Ho. apply app_eq_nil in Hi as [Hi1 Hi2].
  destruct (output r1) as [a|] eqn:Ha; [|discriminate].
  destruct (output r2) as [b|] eqn:Hb; [|discriminate].
  injection Ho as <-. by exists props, r1, r2, a, b.
Qed.

(** The server action goes on only with at least two links. *)
Lemma findAvailability_two_links (formData : JsValue) (r : Actions.ActionResult) :
  Actions.findAvailability formData = Returned r → Actions.success r = true →
  ∃ props items,
    formData = JObj props ∧ getProp "links" props = JArr items ∧
    (2 ≤ length items)%nat.
Proof.
  unfold Actions.findAvailability. intros Hr Hs.
  apply bind_Returned in Hr as (vr & Hvr & Hr).
  destruct vr as [d|errs]; [|by injection Hr as <-].
  apply safeParse_success in Hvr as (pr & Hpr & Hi & Ho).
  destruct (object2_clean _ _ _ _ _ _ _ _ _ Hpr Hi Ho)
    as (props & r1 & r2 & a & b & Hv & Hr1 & Hi1 & _).
  apply array_min_clean in Hr1 as (items & Hitems & Hlen); [|done].
  by exists props, items.
Qed.

(** The form validates only with at least two links. *)
Lemma FormSchema_two_links (v : JsValue) (data : CalendarForm.FormValues) :
  safeParse CalendarForm.FormSchema v = Returned (ParseSuccess data) →
  ∃ props items,
    v = JObj props ∧ getProp "links" props = JArr items ∧
    (2 ≤ length items)%nat ∧ length (CalendarForm.links data) = length items.
Proof.
  intros Hp. apply safeParse_success in Hp as (pr & Hpr & Hi & Ho).
  destruct (object2_clean _ _ _ _ _ _ _ _ _ Hpr Hi Ho)
    as (props & r1 & r2 & a & b & Hv & Hr1 & Hi1 & Ha & _ & _ & _ & Hd).
  destruct (array_min_clean _ _ _ _ _ _ Hr1 Hi1) as (items & Hitems & Hlen).
  exists props, items. repeat split; [done..|].
  subst data. simpl. rewrite Hitems in Hr1. by eapply array_min_length.
Qed.
End CleanParses.

(** ** The server action: the shape of a valid request *)

Section RequestShape.
Context `{Platform}.

Lemma action_links_parse (urls : list string) p i :
  Forall (λ u, returns (new_URL u)) urls →
  parse_items Actions.LinkSchema p i ((fun u => JObj [("value", JStr u)]) <$> urls)
  = Returned (mkParse [] (Some (Actions.mkLink <$> urls))).
Proof.
  intros Hall. revert i. induction Hall as [|u rest [x Hx] _ IH]; intros i.
  - reflexivity.
  - rewrite fmap_cons.
    change (parse_items Actions.LinkSchema p i (?v :: ?l))
      with (r ← Actions.LinkSchema (p ++ [Idx i]) v;
            rs ← parse_items Actions.LinkSchema p (S i) l;
            Returned (mkParse (issues r ++ issues rs)
                        (match output r, output rs with
                         | Some x, Some xs => Some (x :: xs)
                         | _, _ => None
                         end))).
    rewrite IH.
    unfold Actions.LinkSchema, object1, field, string_url. simpl.
    rewrite Hx. reflexivity.
Qed.

Lemma positive_integer_parse (d : Z) p :
  0 < d →
  number_int_positive p (JNum (ofZ d)) = Returned (mkParse [] (Some (ofZ d))).
Proof.
  intros Hd. unfold number_int_positive, ofZ, isInteger, num_le, Qle_bool. simpl.
  rewrite Z.mod_1_r. simpl.
  replace (d * 1 <=? 0 * 1) with false; [reflexivity|].
  symmetry. apply Z.leb_gt. lia.
Qed.

Lemma FindAvailabilitySchema_unfold props :
  Actions.FindAvailabilitySchema [] (JObj props) =
    (r1 ← array_min Actions.LinkSchema 2 None [Key "links"] (getProp "links" props);
     r2 ← number_int_positive [Key "duration"] (getProp "duration" props);
     Returned (mkParse (issues r1 ++ issues r2)
                 (match output r1, output r2 with
                  | Some a, Some b => Some (Actions.mkData a b)
                  | _, _ => None
                  end))).
Proof. reflexivity. Qed.

(** Without a [duration] property the schema of the action fails. *)
Lemma missing_duration_rejected (props : list (string * JsValue)) :
  getProp "duration" props = JUndefined →
  ∃ errs, safeParse Actions.FindAvailabilitySchema (JObj props)
          = Returned (ParseError errs) ∧
          mkIssue invalid_type [Key "duration"] None ∈ errs.
Proof.
  intros Hd. unfold safeParse. rewrite FindAvailabilitySchema_unfold, Hd.
  destruct (array_min_returns Actions.LinkSchema 2 None [Key "links"]
              (getProp "links" props) action_LinkSchema_returns) as [r1 ->].
  simpl. exists (issues r1 ++ [mkIssue invalid_type [Key "duration"] None]). split.
  - destruct (issues r1); simpl; [reflexivity|]. by destruct (output r1).
  - apply elem_of_app. right. by apply list_elem_of_singleton.
Qed.

(** Without a [duration] property the schema of the form fails too: the
    coercion turns [undefined] into NaN. *)
Lemma form_missing_duration_rejected (props : list (string * JsValue)) :
  getProp "duration" props = JUndefined →
  ∃ errs, safeParse CalendarForm.FormSchema (JObj props) = Returned (ParseError errs) ∧
          mkIssue invalid_type [Key "duration"] (Some "Please select a duration.") ∈ errs.
Proof.
  intros Hd. unfold safeParse. rewrite FormSchema_unfold, Hd.
  destruct (form_links_returns [Key "links"] (getProp "links" props)) as [r1 ->].
  simpl.
  exists (issues r1 ++
            [mkIssue invalid_type [Key "duration"] (Some "Please select a duration.")]).
  split.
  - destruct (issues r1); simpl; [reflexivity|]. by destruct (output r1).
  - apply elem_of_app. right. by apply list_elem_of_singleton.
Qed.

(** C2 (amended). The request the action validates holds a list of
    links and a REQUIRED duration: a request with at least two links
    that are valid URLs and a positive integer duration passes the
    schema, and the same request without its duration is rejected, by
    the schema and by the action, which answers "Invalid form data
    provided.", and by the schema of the form, which answers "Please
    select a duration.". *)
Theorem duration_is_required (urls : list string) (d : Z) :
  (2 ≤ length urls)%nat →
  Forall (λ u, returns (new_URL u)) urls →
  0 < d →
  safeParse Actions.FindAvailabilitySchema (Actions.request urls (ofZ d))
    = Returned (ParseSuccess (Actions.mkData (Actions.mkLink <$> urls) (ofZ d))) ∧
  (∃ errs, safeParse Actions.FindAvailabilitySchema (Actions.request_without_duration urls)
           = Returned (ParseError errs)) ∧
  Actions.findAvailability (Actions.request_without_duration urls)
    = Returned (Actions.mkResult false None None (Some "Invalid form data provided.")) ∧
  (∃ errs, safeParse CalendarForm.FormSchema (Actions.request_without_duration urls)
           = Returned (ParseError errs) ∧
           mkIssue invalid_type [Key "duration"] (Some "Please select a duration.") ∈ errs).
Proof.
  intros Hlen Hurls Hd. split; [|split; [|split]].
  - unfold safeParse, Actions.request. rewrite FindAvailabilitySchema_unfold.
    change (getProp "links" _) with (Actions.links_value urls).
    change (getProp "duration" _) with (JNum (ofZ d)).
    unfold Actions.links_value, array_min.
    rewrite action_links_parse by done.
    rewrite positive_integer_parse by done.
    rewrite length_fmap. simpl.
    destruct (length urls <? 2)%nat eqn:Hlt; [|reflexivity].
    apply Nat.ltb_lt in Hlt. lia.
  - destruct (missing_duration_rejected [("links", Actions.links_value urls)])
      as (errs & Herr & _); [reflexivity|]. by exists errs.
  - destruct (missing_duration_rejected [("links", Actions.links_value urls)])
      as (errs & Herr & _); [reflexivity|].
    unfold Actions.findAvailability, Actions.request_without_duration.
    by rewrite Herr.
  - apply form_missing_duration_rejected. reflexivity.
Qed.
End RequestShape.

(** C2, a request that omits the duration: two valid links, no duration,
    and validation fails where the claim has it succeed. *)
Lemma omitted_duration_fails :
  safeParse (@Actions.FindAvailabilitySchema Samples.platform)
    (Actions.request_without_duration
       ["https://calendly.com/ann"; "https://calendar.google.com/bob"])
  = Returned (ParseError [mkIssue invalid_type [Key "duration"] None]) ∧
  Actions.findAvailability (H := Samples.platform)
    (Actions.request_without_duration
       ["https://calendly.com/ann"; "https://calendar.google.com/bob"])
  = Returned (Actions.mkResult false None None (Some "Invalid form data provided.")) ∧
  Zod.success <$> safeParse (@CalendarForm.FormSchema Samples.platform)
    (Actions.request_without_duration
       ["https://calendly.com/ann"; "https://calendar.google.com/bob"])
  = Returned false.
Proof. repeat split. Qed.

Lemma duration_is_required_witness :
  safeParse (@Actions.FindAvailabilitySchema Samples.platform)
    (Actions.request ["https://calendly.com/ann"; "https://calendar.google.com/bob"] (ofZ 30))
  = Returned (ParseSuccess
      (Actions.mkData
         (Actions.mkLink <$> ["https://calendly.com/ann"; "https://calendar.google.com/bob"])
         (ofZ 30))).
Proof.
  apply (@duration_is_required Samples.platform
           ["https://calendly.com/ann"; "https://calendar.google.com/bob"] 30).
  - simpl. lia.
  - repeat constructor; by eexists.
  - lia.
Defined.

(** ** Failures are ordinary return values *)

Section FailuresAreValues.

Lemma getGoogleOauthToken_returns {Client} (sdk : Clerk.Sdk Client) :
  returns (Clerk.getGoogleOauthToken sdk).
Proof.
  unfold Clerk.getGoogleOauthToken. apply try_catch_returns.
  intros _. by eexists.
Qed.

Lemma findAvailability_returns `{Platform} (formData : JsValue) :
  returns (Actions.findAvailability formData).
Proof.
  unfold Actions.findAvailability.
  destruct (safeParse_returns Actions.FindAvailabilitySchema formData
              (FindAvailabilitySchema_returns [] formData)) as [vr ->].
  simpl. destruct vr; by eexists.
Qed.

Section TokenBranches.
Context {Client : Type} (sdk : Clerk.Sdk Client).

Ltac run_token :=
  unfold Clerk.getGoogleOauthToken, Clerk.falsy_userId, truthy_string;
  repeat match goal with
         | H : _ = _ |- _ => rewrite H; simpl
         end.

Lemma eqb_empty_false (s : string) : s ≠ "" → String.eqb s "" = false.
Proof. intros Hs. by apply String.eqb_neq. Qed.

Lemma token_auth_throws e :
  Clerk.auth sdk = Thrown e →
  Clerk.getGoogleOauthToken sdk
  = Returned (Clerk.failure "Failed to retrieve Google OAuth token.").
Proof. intros Ha. by run_token. Qed.

Lemma token_unauthenticated a :
  Clerk.auth sdk = Returned a →
  Clerk.userId a = None ∨ Clerk.userId a = Some "" →
  Clerk.getGoogleOauthToken sdk = Returned (Clerk.failure "User not authenticated.").
Proof. intros Ha [Hu|Hu]; by run_token. Qed.

Lemma token_client_throws a uid e :
  Clerk.auth sdk = Returned a → Clerk.userId a = Some uid → uid ≠ "" →
  Clerk.clerkClient sdk = Thrown e →
  Clerk.getGoogleOauthToken sdk
  = Returned (Clerk.failure "Failed to retrieve Google OAuth token.").
Proof. intros Ha Hu Hne%eqb_empty_false Hc. by run_token. Qed.

Lemma token_call_throws a uid c e :
  Clerk.auth sdk = Returned a → Clerk.userId a = Some uid → uid ≠ "" →
  Clerk.clerkClient sdk = Returned c →
  Clerk.getUserOauthAccessToken sdk c uid "oauth_google" = Thrown e →
  Clerk.getGoogleOauthToken sdk
  = Returned (Clerk.failure "Failed to retrieve Google OAuth token.").
Proof. intros Ha Hu Hne%eqb_empty_false Hc Hr. by run_token. Qed.

Lemma token_not_found a uid c resp :
  Clerk.auth sdk = Returned a → Clerk.userId a = Some uid → uid ≠ "" →
  Clerk.clerkClient sdk = Returned c →
  Clerk.getUserOauthAccessToken sdk c uid "oauth_google" = Returned resp →
  Clerk.data resp = [] →
  Clerk.getGoogleOauthToken sdk
  = Returned (Clerk.failure "Google OAuth token not found for this user.").
Proof. intros Ha Hu Hne%eqb_empty_false Hc Hr Hd. by run_token. Qed.

Lemma token_empty a uid c resp t rest :
  Clerk.auth sdk = Returned a → Clerk.userId a = Some uid → uid ≠ "" →
  Clerk.clerkClient sdk = Returned c →
  Clerk.getUserOauthAccessToken sdk c uid "oauth_google" = Returned resp →
  Clerk.data resp = t :: rest → Clerk.token t = "" →
  Clerk.getGoogleOauthToken sdk
  = Returned (Clerk.failure "Empty Google OAuth token received.").
Proof. intros Ha Hu Hne%eqb_empty_false Hc Hr Hd Ht. by run_token. Qed.

Lemma token_found a uid c resp t rest :
  Clerk.auth sdk = Returned a → Clerk.userId a = Some uid → uid ≠ "" →
  Clerk.clerkClient sdk = Returned c →
  Clerk.getUserOauthAccessToken sdk c uid "oauth_google" = Returned resp →
  Clerk.data resp = t :: rest → Clerk.token t ≠ "" →
  Clerk.getGoogleOauthToken sdk
  = Returned (Clerk.mkResult true (Some (Clerk.token t)) None).
Proof. intros Ha Hu Hne%eqb_empty_false Hc Hr Hd Ht%eqb_empty_false. by run_token. Qed.

Lemma token_result_shape r :
  Clerk.getGoogleOauthToken sdk = Returned r →
  (∃ msg, r = Clerk.failure msg) ∨ (∃ tok, r = Clerk.mkResult true (Some tok) None).
Proof.
  unfold Clerk.getGoogleOauthToken.
  destruct (Clerk.auth sdk) as [a|]; simpl; [|intros [= <-]; eauto].
  destruct (Clerk.falsy_userId _); [intros [= <-]; eauto|].
  destruct (Clerk.clerkClient sdk) as [c|]; simpl; [|intros [= <-]; eauto].
  destruct (Clerk.getUserOauthAccessToken _ _ _ _) as [resp|]; simpl;
    [|intros [= <-]; eauto].
  destruct (Clerk.data resp) as [|t rest]; simpl; [intros [= <-]; eauto|].
  destruct (truthy_string _); simpl; intros [= <-]; eauto.
Qed.
End TokenBranches.

(** [getGoogleOauthToken] returns a value for every behaviour of the
    functions it calls, and [findAvailability] for all plain data; in
    each failure branch the value has [success: false] and an error text:
    the user is not authenticated, no token is found, the token is empty,
    a call into the SDK throws, the form data does not validate. *)
Lemma token_and_action_return :
  (∀ Client (sdk : Clerk.Sdk Client),
    ∃ r, Clerk.getGoogleOauthToken sdk = Returned r ∧
      (Clerk.success r = false → Clerk.result_token r = None ∧ is_Some (Clerk.error r)) ∧
      (∀ e, Clerk.auth sdk = Thrown e →
            r = Clerk.failure "Failed to retrieve Google OAuth token.") ∧
      (∀ a, Clerk.auth sdk = Returned a →
         (Clerk.userId a = None ∨ Clerk.userId a = Some "" →
            r = Clerk.failure "User not authenticated.") ∧
         (∀ uid, Clerk.userId a = Some uid → uid ≠ "" →
            (∀ e, Clerk.clerkClient sdk = Thrown e →
                  r = Clerk.failure "Failed to retrieve Google OAuth token.") ∧
            (∀ c, Clerk.clerkClient sdk = Returned c →
               (∀ e, Clerk.getUserOauthAccessToken sdk c uid "oauth_google" = Thrown e →
                     r = Clerk.failure "Failed to retrieve Google OAuth token.") ∧
               (∀ resp, Clerk.getUserOauthAccessToken sdk c uid "oauth_google"
                        = Returned resp →
                  (Clerk.data resp = [] →
                     r = Clerk.failure "Google OAuth token not found for this user.") ∧
                  (∀ t rest, Clerk.data resp = t :: rest →
                     (Clerk.token t = "" →
                        r = Clerk.failure "Empty Google OAuth token received.") ∧
                     (Clerk.token t ≠ "" →
                        r = Clerk.mkResult true (Some (Clerk.token t)) None))))))) ∧
  (∀ (P : Platform) (formData : JsValue),
    ∃ r, Actions.findAvailability formData = Returned r ∧
      (Actions.success r = false → is_Some (Actions.error r)) ∧
      (∀ errs, safeParse Actions.FindAvailabilitySchema formData
               = Returned (ParseError errs) →
               r = Actions.mkResult false None None (Some "Invalid form data provided."))).
Proof.
  split.
  - intros Client sdk.
    destruct (getGoogleOauthToken_returns sdk) as [r Hr]. exists r.
    split; [done|]. split.
    { intros Hs. destruct (token_result_shape sdk r Hr) as [[msg ->]|[tok ->]].
      - split; [done | by eexists].
      - discriminate. }
    split.
    { intros e He. rewrite (token_auth_throws sdk e He) in Hr. by injection Hr. }
    intros a Ha. split.
    { intros Hu. rewrite (token_unauthenticated sdk a Ha Hu) in Hr. by injection Hr. }
    intros uid Hu Hne. split.
    { intros e He. rewrite (token_client_throws sdk a uid e Ha Hu Hne He) in Hr.
      by injection Hr. }
    intros c Hc. split.
    { intros e He. rewrite (token_call_throws sdk a uid c e Ha Hu Hne Hc He) in Hr.
      by injection Hr. }
    intros resp Hresp. split.
    { intros Hd. rewrite (token_not_found sdk a uid c resp Ha Hu Hne Hc Hresp Hd) in Hr.
      by injection Hr. }
    intros t rest Hd. split.
    { intros Ht.
      rewrite (token_empty sdk a uid c resp t rest Ha Hu Hne Hc Hresp Hd Ht) in Hr.
      by injection Hr. }
    intros Ht.
    rewrite (token_found sdk a uid c resp t rest Ha Hu Hne Hc Hresp Hd Ht) in Hr.
    by injection Hr.
  - intros P formData.
    destruct (findAvailability_returns formData) as [r Hr]. exists r.
    split; [done|]. revert Hr. unfold Actions.findAvailability.
    destruct (safeParse Actions.FindAvailabilitySchema formData) as [vr|e]; simpl;
      [|discriminate].
    destruct vr as [d|errs]; intros [= <-]; simpl.
    + split; [done|]. intros errs. discriminate.
    + split; [by eexists|]. done.
Qed.
End FailuresAreValues.

(** ** The localStorage helpers *)

Section StorageRoundTrip.
Context `{Storage.Browser}.

Lemma loadData_outside_browser (key : string) :
  Storage.loadData key None = Returned JNull.
Proof. reflexivity. Qed.

Lemma saveData_stores (key : string) (v : JsValue) (store : gmap string string) text :
  Storage.JSON_stringify v = Returned text →
  Storage.setItem_throws store key (Storage.toStringArg text) = None →
  Storage.saveData key v (Some store)
  = Returned (Some (<[key := Storage.toStringArg text]> store)).
Proof.
  intros Hs Hset. unfold Storage.saveData, Storage.setItem.
  rewrite Hs. simpl. by rewrite Hset.
Qed.

Lemma loadData_parses (key : string) (store : gmap string string) text :
  Storage.getItem_throws store key = None →
  store !! key = Some text →
  Storage.loadData key (Some store)
  = try_catch (Storage.JSON_parse text) (fun _ => Returned JNull).
Proof.
  intros Hget Hk. unfold Storage.loadData, Storage.getItem.
  rewrite Hget. simpl. by rewrite Hk.
Qed.

(** C9. In a browser, when the value [v] survives
    [JSON.parse(JSON.stringify(v))] and the calls into localStorage do
    not throw, [saveData(key, v)] followed by [loadData(key)] returns
    [v]; outside a browser [loadData] returns [null] for every key. *)
Theorem storage_round_trip (key : string) (v : JsValue)
    (store : gmap string string) (text : option string) :
  Storage.JSON_stringify v = Returned text →
  Storage.JSON_parse (Storage.toStringArg text) = Returned v →
  Storage.setItem_throws store key (Storage.toStringArg text) = None →
  Storage.getItem_throws (<[key := Storage.toStringArg text]> store) key = None →
  (∃ store',
     Storage.saveData key v (Some store) = Returned (Some store') ∧
     Storage.loadData key (Some store') = Returned v) ∧
  (∀ key', Storage.loadData key' None = Returned JNull).
Proof.
  intros Hs Hp Hset Hget. split; [|apply loadData_outside_browser].
  exists (<[key := Storage.toStringArg text]> store). split.
  - by apply saveData_stores.
  - rewrite (loadData_parses key _ (Storage.toStringArg text) Hget).
    + by rewrite Hp.
    + apply lookup_insert_eq.
Qed.
End StorageRoundTrip.

Lemma storage_round_trip_witness :
  ∃ store',
    Storage.saveData (H := Samples.browser) "wizard" (JBool true) (Some ∅)
      = Returned (Some store') ∧
    Storage.loadData (H := Samples.browser) "wizard" (Some store') = Returned (JBool true).
Proof.
  apply (@storage_round_trip Samples.browser "wizard" (JBool true) ∅ (Some "true"));
    reflexivity.
Defined.

(** ** The normalizer *)

Section Normalizer.

Lemma insert_by_start_valid s l :
  valid_slot s = true → forallb valid_slot l = true →
  forallb valid_slot (insert_by_start s l) = true.
Proof.
  intros Hs. induction l as [|x rest IH]; simpl.
  - by rewrite Hs.
  - intros [Hx Hrest]%andb_true_iff. destruct (slot_start s <? slot_start x); simpl.
    + by rewrite Hs, Hx, Hrest.
    + by rewrite Hx, IH.
Qed.

Lemma sort_by_start_valid l :
  forallb valid_slot l = true → forallb valid_slot (sort_by_start l) = true.
Proof.
  induction l as [|s rest IH]; simpl; [done|].
  intros [Hs Hrest]%andb_true_iff. apply insert_by_start_valid; auto.
Qed.

Lemma insert_by_start_perm s l : insert_by_start s l ≡ₚ s :: l.
Proof.
  induction l as [|x rest IH]; simpl; [done|].
  destruct (slot_start s <? slot_start x); [done|].
  rewrite IH. apply Permutation_swap.
Qed.

Lemma sort_by_start_perm l : sort_by_start l ≡ₚ l.
Proof.
  induction l as [|s rest IH]; simpl; [done|].
  by rewrite insert_by_start_perm, IH.
Qed.

Lemma insert_by_start_sorted s l :
  Sorted by_start l → Sorted by_start (insert_by_start s l).
Proof.
  induction 1 as [|x rest Hrest IH Hhd]; simpl.
  - repeat constructor.
  - destruct (slot_start s <? slot_start x) eqn:Hlt.
    + apply Z.ltb_lt in Hlt. repeat constructor; [done..|]. unfold by_start. lia.
    + apply Z.ltb_ge in Hlt. constructor; [done|].
      destruct Hhd as [|y rest' Hxy]; simpl.
      * by constructor.
      * destruct (slot_start s <? slot_start y); by constructor.
Qed.

Lemma sort_by_start_sorted l : Sorted by_start (sort_by_start l).
Proof.
  induction l as [|s rest IH]; simpl; [constructor|].
  by apply insert_by_start_sorted.
Qed.

(** The sweep starts with [current]'s start and never shortens it. *)
Lemma sweep_head current rest :
  ∃ e tl, sweep current rest = mkSlot (slot_start current) e :: tl ∧
          slot_end current ≤ e.
Proof.
  revert current. induction rest as [|next rest IH]; intros current; simpl.
  - exists (slot_end current), []. by destruct current.
  - destruct ((slot_start next <=? slot_end current) || (slot_start next =? slot_end current)).
    + destruct (IH (mkSlot (slot_start current)
                      (Z.max (slot_end current) (slot_end next)))) as (e & tl & -> & He).
      simpl in *. exists e, tl. split; [done|]. lia.
    + exists (slot_end current), (sweep next rest). by destruct current.
Qed.

Lemma sweep_valid current rest :
  valid_slot current = true → forallb valid_slot rest = true →
  forallb valid_slot (sweep current rest) = true.
Proof.
  revert current. induction rest as [|next rest IH]; intros current Hc; simpl.
  - by rewrite Hc.
  - intros [Hn Hrest]%andb_true_iff.
    destruct ((slot_start next <=? slot_end current) || (slot_start next =? slot_end current)).
    + apply IH; [|done]. unfold valid_slot in *. simpl.
      apply Z.ltb_lt in Hc. apply Z.ltb_lt. lia.
    + simpl. rewrite Hc. by apply IH.
Qed.

Lemma sweep_separated current rest : separated (sweep current rest) = true.
Proof.
  revert current. induction rest as [|next rest IH]; intros current; simpl; [done|].
  destruct ((slot_start next <=? slot_end current) || (slot_start next =? slot_end current))
    eqn:Hm; [apply IH|].
  specialize (IH next).
  destruct (sweep_head next rest) as (e & tl & Heq & _).
  rewrite Heq in *. simpl in *. rewrite IH, andb_true_r.
  apply orb_false_iff in Hm as [Hle _]. apply Z.leb_gt in Hle. apply Z.ltb_lt. lia.
Qed.

Lemma merge_sorted_normalized l :
  forallb valid_slot l = true → normalized (merge_sorted l) = true.
Proof.
  destruct l as [|first rest]; [done|]. simpl.
  intros [Hf Hrest]%andb_true_iff. unfold normalized.
  by rewrite sweep_valid, sweep_separated.
Qed.

Lemma normalized_cons a l :
  normalized (a :: l) = true →
  valid_slot a = true ∧ normalized l = true ∧
  match l with b :: _ => slot_end a < slot_start b | [] => True end.
Proof.
  unfold normalized. simpl. intros [[Ha Hv]%andb_true_iff Hs]%andb_true_iff.
  destruct l as [|b rest]; [done|].
  apply andb_true_iff in Hs as [Hab%Z.ltb_lt Hs].
  repeat split; [done| |done]. by rewrite Hv, Hs.
Qed.

Lemma normalized_adjacent_gap l : normalized l = true → adjacent_gap l.
Proof.
  induction l as [|a rest IH]; intros Hn i x y Hx Hy; [done|].
  apply normalized_cons in Hn as (Ha & Hrest & Hgap).
  destruct i as [|i]; simpl in *.
  - injection Hx as <-. destruct rest as [|b rest']; [done|].
    injection Hy as <-. apply Z.ltb_lt in Ha. lia.
  - by eapply IH.
Qed.

Lemma normalized_ascending l :
  normalized l = true →
  StronglySorted (λ a b, slot_start a < slot_start b) l.
Proof.
  induction l as [|a rest IH]; intros Hn; [constructor|].
  apply normalized_cons in Hn as (Ha & Hrest & Hgap).
  specialize (IH Hrest). constructor; [done|].
  destruct rest as [|b rest']; [constructor|].
  apply StronglySorted_inv in IH as [_ Hall].
  assert (slot_start a < slot_start b) as Hab.
  { apply Z.ltb_lt in Ha. lia. }
  constructor; [done|].
  eapply Forall_impl; [exact Hall|]. simpl. intros c Hc. lia.
Qed.

Lemma normalize_slots_Ok l l' :
  normalize_slots l = Ok l' →
  forallb valid_slot l = true ∧ l' = merge_sorted (sort_by_start l) ∧
  normalized l' = true.
Proof.
  unfold normalize_slots. destruct (forallb valid_slot l) eqn:Hv; [|discriminate].
  intros [= <-]. repeat split.
  apply merge_sorted_normalized. by apply sort_by_start_valid.
Qed.

Lemma sort_by_start_id l : normalized l = true → sort_by_start l = l.
Proof.
  induction l as [|a rest IH]; intros Hn; [done|].
  apply normalized_cons in Hn as (Ha & Hrest & Hgap).
  simpl. rewrite IH by done.
  destruct rest as [|b rest']; [done|]. simpl.
  replace (slot_start a <? slot_start b) with true; [done|].
  symmetry. apply Z.ltb_lt. apply Z.ltb_lt in Ha. lia.
Qed.

Lemma sweep_id a rest : normalized (a :: rest) = true → sweep a rest = a :: rest.
Proof.
  revert a. induction rest as [|b rest' IH]; intros a Hn; [done|].
  apply normalized_cons in Hn as (Ha & Hrest & Hgap). simpl.
  replace (slot_start b <=? slot_end a) with false by (symmetry; apply Z.leb_gt; lia).
  replace (slot_start b =? slot_end a) with false by (symmetry; apply Z.eqb_neq; lia).
  simpl. by rewrite IH.
Qed.

Lemma merge_sorted_id l : normalized l = true → merge_sorted l = l.
Proof. destruct l as [|a rest]; [done|]. apply sweep_id. Qed.

(** Normalizing normalized slots changes nothing. *)
Lemma normalize_slots_id l : normalized l = true → normalize_slots l = Ok l.
Proof.
  intros Hn. unfold normalize_slots.
  assert (forallb valid_slot l = true) as ->.
  { unfold normalized in Hn. by apply andb_true_iff in Hn as [? _]. }
  by rewrite sort_by_start_id, merge_sorted_id.
Qed.

Lemma normalize_slots_twice l :
  normalize_slots l ≫= normalize_slots = normalize_slots l.
Proof.
  destruct (normalize_slots l) as [l'|e] eqn:Hl; [|done]. simpl.
  apply normalize_slots_Ok in Hl as (_ & _ & Hn). by apply normalize_slots_id.
Qed.

Context `{TimeZones}.

Lemma convert_utc_intervals l :
  (∀ t, toUTC "UTC" t = t) → convert "UTC" <$> intervals l = l.
Proof.
  intros Hutc. unfold intervals. rewrite <- list_fmap_compose.
  induction l as [|[a b] rest IH]; [done|].
  rewrite fmap_cons, IH. unfold convert. simpl. by rewrite !Hutc.
Qed.

Lemma renormalize_id s :
  (∀ t, toUTC "UTC" t = t) → normalized (slots s) = true → renormalize s = Ok s.
Proof.
  intros Hutc Hn. unfold renormalize.
  rewrite convert_utc_intervals, normalize_slots_id by done.
  by destruct s.
Qed.

Lemma normalize_Ok sid tz raw s :
  normalize sid tz raw = Ok s →
  sourceId s = sid ∧ timezone s = tz ∧
  slots s = merge_sorted (sort_by_start (convert tz <$> raw)) ∧
  normalized (slots s) = true.
Proof.
  unfold normalize.
  destruct (normalize_slots (convert tz <$> raw)) as [l|e] eqn:Hl; [|discriminate].
  simpl. intros [= <-]. simpl.
  by apply normalize_slots_Ok in Hl as (_ & -> & Hn).
Qed.

(** C4. [normalize] sorts the converted intervals by [start] and sweeps
    them once from left to right, merging [next] into [current] when
    [next.start <= current.end] or [next.start == current.end]; its
    output is in ascending order of [start] and consecutive slots
    satisfy [slots[i].end < slots[i+1].start].  Raw intervals that are
    all of positive length are accepted, the others raise
    InvalidSlotError.  The input [(9:00,10:00), (9:30,11:00)] yields
    [(9:00,11:00)]. *)
Theorem normalize_sorts_and_merges (sid tz : string) (raw : list (Z * Z)) :
  (∀ s, normalize sid tz raw = Ok s →
     slots s = merge_sorted (sort_by_start (convert tz <$> raw)) ∧
     Sorted by_start (sort_by_start (convert tz <$> raw)) ∧
     sort_by_start (convert tz <$> raw) ≡ₚ convert tz <$> raw ∧
     StronglySorted (λ a b, slot_start a < slot_start b) (slots s) ∧
     adjacent_gap (slots s)) ∧
  (Forall (λ r, toUTC tz r.1 < toUTC tz r.2) raw ↔ ∃ s, normalize sid tz raw = Ok s) ∧
  (¬ Forall (λ r, toUTC tz r.1 < toUTC tz r.2) raw ↔
     normalize sid tz raw = Err InvalidSlotError) ∧
  (∀ current next rest,
     sweep current (next :: rest) =
       if (slot_start next <=? slot_end current) || (slot_start next =? slot_end current)
       then sweep (mkSlot (slot_start current)
                          (Z.max (slot_end current) (slot_end next))) rest
       else current :: sweep next rest) ∧
  normalize_slots [mkSlot (9 * 60) (10 * 60); mkSlot (9 * 60 + 30) (11 * 60)]
    = Ok [mkSlot (9 * 60) (11 * 60)].
Proof.
  assert (forallb valid_slot (convert tz <$> raw) = true
          ↔ Forall (λ r, toUTC tz r.1 < toUTC tz r.2) raw) as Hvalid.
  { rewrite <- Is_true_true, forallb_True, Forall_fmap. apply Forall_iff.
    intros [a b]. unfold valid_slot, convert, compose. simpl.
    rewrite Is_true_true. apply Z.ltb_lt. }
  split; [|split; [|split; [|split]]].
  - intros s Hs. apply normalize_Ok in Hs as (_ & _ & Hslots & Hn).
    split; [done|]. split; [apply sort_by_start_sorted|].
    split; [apply sort_by_start_perm|].
    split; [by apply normalized_ascending | by apply normalized_adjacent_gap].
  - rewrite <- Hvalid. unfold normalize, normalize_slots.
    destruct (forallb valid_slot (convert tz <$> raw)); simpl.
    + split; [by eexists | done].
    + split; [done | by intros [s ?]].
  - rewrite <- Hvalid. unfold normalize, normalize_slots.
    destruct (forallb valid_slot (convert tz <$> raw)); simpl.
    + split; [by intros [] | done].
    + split; [done | by intros _ ?].
  - reflexivity.
  - reflexivity.
Qed.

(** C5. Normalization is idempotent: normalizing the outcome of a
    normalization gives that outcome again, on slot sequences and on
    schedules, and a schedule that is already normalized is left as it
    is.  The slots of a normalized schedule are UTC instants, and UTC
    times convert to themselves. *)
Theorem normalize_idempotent :
  (∀ t, toUTC "UTC" t = t) →
  (∀ l, normalize_slots l ≫= normalize_slots = normalize_slots l) ∧
  (∀ sid tz raw, normalize sid tz raw ≫= renormalize = normalize sid tz raw) ∧
  (∀ s, normalized (slots s) = true → renormalize s = Ok s).
Proof.
  intros Hutc. split; [apply normalize_slots_twice|]. split.
  - intros sid tz raw. destruct (normalize sid tz raw) as [s|e] eqn:Hs; [|done].
    simpl. apply normalize_Ok in Hs as (_ & _ & _ & Hn). by apply renormalize_id.
  - intros s Hn. by apply renormalize_id.
Qed.
End Normalizer.

Lemma normalize_idempotent_witness :
  normalize (H := Samples.zones) "ann" "Europe/Paris" [(660, 720); (600, 630); (620, 670)]
    ≫= renormalize (H := Samples.zones)
  = normalize (H := Samples.zones) "ann" "Europe/Paris" [(660, 720); (600, 630); (620, 670)].
Proof.
  assert (∀ t, @toUTC Samples.zones "UTC" t = t) as Hutc by reflexivity.
  exact (proj1 (proj2 (@normalize_idempotent Samples.zones Hutc)) _ _ _).
Defined.

(** The normalizer on concrete inputs: a merge, a duplicate, a rejected
    interval of length zero. *)
Example normalize_examples :
  let norm := @normalize Samples.zones in
  norm "ann" "UTC" [(540, 600); (570, 660)] = Ok (mkSchedule "ann" [mkSlot 540 660] "UTC") ∧
  norm "ann" "UTC" [(540, 600); (540, 600)] = Ok (mkSchedule "ann" [mkSlot 540 600] "UTC") ∧
  norm "ann" "UTC" [(700, 800); (540, 600); (600, 660)]
    = Ok (mkSchedule "ann" [mkSlot 540 660; mkSlot 700 800] "UTC") ∧
  norm "ann" "UTC" [(540, 600); (700, 700)] = Err InvalidSlotError.
Proof. repeat split. Qed.

(** ** The overlap processor *)

Section Processor.
Local Open Scope nat_scope.

Lemma advance_le e c : length (advance e c) ≤ length c.
Proof.
  destruct c as [|s rest]; simpl; [lia|].
  destruct (slot_end s =? e)%Z; simpl; lia.
Qed.

Lemma advance_lt e c h :
  head c = Some h → slot_end h = e → length (advance e c) < length c.
Proof.
  destruct c as [|s rest]; simpl; [done|]. intros [= ->] <-.
  rewrite Z.eqb_refl. lia.
Qed.

Lemma remaining_cons c cs : remaining (c :: cs) = length c + remaining cs.
Proof. reflexivity. Qed.

Lemma remaining_advance_le e cs : remaining (advance e <$> cs) ≤ remaining cs.
Proof.
  induction cs as [|c cs IH]; [done|].
  rewrite fmap_cons, !remaining_cons. pose proof (advance_le e c). lia.
Qed.

Lemma remaining_advance_lt e cs hs :
  Forall2 (λ c h, head c = Some h) cs hs → e ∈ slot_end <$> hs →
  remaining (advance e <$> cs) < remaining cs.
Proof.
  induction 1 as [|c h cs hs Hh _ IH]; intros He.
  - by apply elem_of_nil in He.
  - rewrite fmap_cons, !remaining_cons.
    rewrite fmap_cons in He. apply elem_of_cons in He as [->|He].
    + pose proof (advance_lt _ c h Hh eq_refl).
      pose proof (remaining_advance_le (slot_end h) cs). lia.
    + pose proof (advance_le e c). specialize (IH He). lia.
Qed.

Lemma foldl_min_attained (a : Z) (l : list Z) : foldl Z.min a l ∈ a :: l.
Proof.
  revert a. induction l as [|x l IH]; intros a; simpl.
  - by apply list_elem_of_singleton.
  - specialize (IH (Z.min a x)). apply elem_of_cons in IH as [Heq|Hin].
    + rewrite Heq. destruct (Z.min_spec a x) as [[_ ->]|[_ ->]].
      * apply elem_of_cons. by left.
      * apply elem_of_cons. right. apply elem_of_cons. by left.
    + apply elem_of_cons. right. apply elem_of_cons. by right.
Qed.

Lemma candidateEnd_attained first others :
  candidateEnd first others ∈ slot_end <$> first :: others.
Proof. unfold candidateEnd. rewrite fmap_cons. apply foldl_min_attained. Qed.

(** The sweep over at least one cursor ends, and the fuel [intersect]
    gives it is enough. *)
Lemma sweep_cursors_terminates fuel cursors :
  cursors ≠ [] → remaining cursors < fuel → is_Some (sweep_cursors fuel cursors).
Proof.
  revert cursors. induction fuel as [|fuel IH]; intros cursors Hne Hfuel; [lia|].
  simpl. destruct (current_slots cursors) as [hs|] eqn:Hcur; [|by eexists].
  apply mapM_Some_1 in Hcur.
  destruct hs as [|first others].
  { apply Forall2_nil_inv_r in Hcur. done. }
  pose proof (remaining_advance_lt _ _ _ Hcur (candidateEnd_attained first others)) as Hlt.
  destruct (IH (advance (candidateEnd first others) <$> cursors)) as [rest ->].
  - by destruct cursors.
  - lia.
  - simpl. by eexists.
Qed.

Lemma intersect_defined schedules minDuration :
  schedules ≠ [] → Forall (λ s, normalized (slots s) = true) schedules →
  ∃ common, intersect schedules minDuration = Ok common.
Proof.
  intros Hne Hall. unfold intersect. destruct schedules as [|s rest]; [done|].
  assert (forallb (λ s, normalized (slots s)) (s :: rest) = true) as ->.
  { apply Is_true_true, forallb_True. eapply Forall_impl; [exact Hall|].
    intros x Hx. simpl in Hx. by rewrite Hx. }
  destruct (sweep_cursors_terminates (S (remaining (slots <$> s :: rest)))
              (slots <$> s :: rest)) as [common ->]; [done|lia|].
  by eexists.
Qed.

(** C6. When one of the schedules handed to [intersect] has no slots,
    the result is the empty sequence, without an error, whatever the
    other schedules hold. *)
Theorem empty_schedule_empties_intersection
    (schedules : list AvailabilitySchedule) (minDuration : option Z) :
  schedules ≠ [] →
  Forall (λ s, normalized (slots s) = true) schedules →
  (∃ s, s ∈ schedules ∧ slots s = []) →
  intersect schedules minDuration = Ok [].
Proof.
  intros Hne Hall (s0 & Hin & Hempty). unfold intersect.
  destruct schedules as [|s rest]; [done|].
  assert (forallb (λ s, normalized (slots s)) (s :: rest) = true) as ->.
  { apply Is_true_true, forallb_True. eapply Forall_impl; [exact Hall|].
    intros x Hx. simpl in Hx. by rewrite Hx. }
  assert (current_slots (slots <$> s :: rest) = None) as Hcur.
  { apply mapM_None, Exists_exists. exists []. split; [|done].
    rewrite <- Hempty. by apply list_elem_of_fmap_2. }
  cbn [sweep_cursors]. rewrite Hcur. by destruct minDuration.
Qed.
End Processor.

Lemma empty_schedule_empties_intersection_witness :
  intersect [mkSchedule "ann" [mkSlot 540 720] "UTC";
             mkSchedule "bob" [] "UTC";
             mkSchedule "cat" [mkSlot 600 660; mkSlot 690 780] "UTC"] (Some 30)
  = Ok [].
Proof.
  apply empty_schedule_empties_intersection.
  - discriminate.
  - repeat constructor.
  - exists (mkSchedule "bob" [] "UTC"). split; [|reflexivity].
    apply elem_of_cons. right. apply elem_of_cons. by left.
Defined.

(** The processor on the literal cases of the specification. *)
Example intersect_examples :
  intersect [mkSchedule "a" [mkSlot 540 720] "UTC";
             mkSchedule "b" [mkSlot 600 660; mkSlot 690 780] "UTC"] None
    = Ok [mkSlot 600 660; mkSlot 690 720] ∧
  intersect [mkSchedule "b" [mkSlot 600 660; mkSlot 690 780] "UTC";
             mkSchedule "a" [mkSlot 540 720] "UTC"] None
    = Ok [mkSlot 600 660; mkSlot 690 720] ∧
  intersect [mkSchedule "a" [mkSlot 540 600] "UTC";
             mkSchedule "b" [mkSlot 600 660] "UTC"] None = Ok [] ∧
  filter_duration (Some 30) [mkSlot 600 620; mkSlot 840 900] = [mkSlot 840 900] ∧
  intersect [] None = Err PreconditionViolation ∧
  intersect [mkSchedule "a" [mkSlot 540 600; mkSlot 600 660] "UTC"] None
    = Err PreconditionViolation.
Proof. repeat split. Qed.

(** ** The source fetcher *)

Section Fetcher.
Context `{TimeZones} (provider : AvailabilityProvider) (perSourceTimeout : Z).
Local Open Scope nat_scope.

Lemma complete_length links results i :
  length (complete provider perSourceTimeout links results i) = length results.
Proof.
  unfold complete. destruct (links !! i); [apply length_insert | done].
Qed.

(** What the result sequence holds at place [i] once the tasks of
    [order] have completed. *)
Lemma completed_lookup (links : list CalendarLink) order results i :
  length results = length links →
  foldl (complete provider perSourceTimeout links) results order !! i =
    match links !! i with
    | Some link =>
        if decide (i ∈ order) then Some (Some (fetch_one provider perSourceTimeout link))
        else results !! i
    | None => results !! i
    end.
Proof.
  revert results. induction order as [|j order IH]; intros results Hlen.
  - cbn [foldl]. destruct (links !! i); [|done].
    destruct (decide (i ∈ [])) as [Hin|]; [|done].
    by apply elem_of_nil in Hin.
  - cbn [foldl]. rewrite IH by (by rewrite complete_length).
    unfold complete.
    destruct (links !! i) as [link|] eqn:Hi.
    + destruct (decide (i ∈ order)) as [Hin|Hnin].
      * rewrite decide_True; [done|]. apply elem_of_cons. by right.
      * destruct (decide (i = j)) as [->|Hne].
        -- rewrite Hi. rewrite decide_True by (apply elem_of_cons; by left).
           apply list_lookup_insert_eq. rewrite Hlen. by eapply lookup_lt_Some.
        -- rewrite decide_False.
           ++ destruct (links !! j); [|done]. by apply list_lookup_insert_ne.
           ++ intros [?|?]%elem_of_cons; done.
    + destruct (links !! j) as [lj|] eqn:Hj; [|done].
      apply list_lookup_insert_ne. intros ->. congruence.
Qed.

Lemma all_completed (links : list CalendarLink) order :
  (∀ i, i < length links → i ∈ order) →
  foldl (complete provider perSourceTimeout links)
        (replicate (length links) None) order
  = Some <$> (fetch_one provider perSourceTimeout <$> links).
Proof.
  intros Hall. apply list_eq. intros i.
  rewrite completed_lookup by apply length_replicate.
  rewrite !list_lookup_fmap.
  destruct (links !! i) as [link|] eqn:Hi; simpl.
  - rewrite decide_True; [done|]. apply Hall. by eapply lookup_lt_Some.
  - apply lookup_replicate_None. by apply lookup_ge_None.
Qed.

Lemma fetch_one_sourceId link :
  outcome_sourceId (fetch_one provider perSourceTimeout link) = link_sourceId link.
Proof.
  unfold fetch_one.
  destruct (provider (locator link) perSourceTimeout) as [tz raw|fault|]; [| |done].
  - unfold normalize. by destruct (normalize_slots _).
  - by destruct fault.
Qed.

Lemma fetch_all_outcomes (links : list CalendarLink) (completion : list nat) :
  completion ≡ₚ seq 0 (length links) →
  fetch provider completion links perSourceTimeout
  = Some (fetch_one provider perSourceTimeout <$> links).
Proof.
  intros Hperm. unfold fetch. rewrite all_completed.
  - by apply mapM_fmap_Some.
  - intros i Hi. rewrite Hperm. apply elem_of_seq. lia.
Qed.

(** C7. Whatever the order in which the retrievals complete, [fetch]
    returns the outcomes in the order of the links: the outcome at
    position [i] is the outcome of the task of [links[i]] and bears its
    source id. *)
Theorem fetch_keeps_link_order (links : list CalendarLink) (completion : list nat) :
  completion ≡ₚ seq 0 (length links) →
  fetch provider completion links perSourceTimeout
    = Some (fetch_one provider perSourceTimeout <$> links) ∧
  (∀ outcomes i link,
     fetch provider completion links perSourceTimeout = Some outcomes →
     links !! i = Some link →
     outcomes !! i = Some (fetch_one provider perSourceTimeout link) ∧
     outcome_sourceId <$> outcomes !! i = Some (link_sourceId link)) ∧
  (∀ outcomes,
     fetch provider completion links perSourceTimeout = Some outcomes →
     length outcomes = length links).
Proof.
  intros Hperm.
  pose proof (fetch_all_outcomes links completion Hperm) as Hfetch.
  split; [done|]. rewrite Hfetch. split.
  - intros outcomes i link [= <-] Hi. rewrite list_lookup_fmap, Hi. simpl.
    by rewrite fetch_one_sourceId.
  - intros outcomes [= <-]. apply length_fmap.
Qed.
End Fetcher.

Lemma fetch_keeps_link_order_witness :
  fetch (H := Samples.zones) Samples.provider [2; 0; 1]%nat
    [mkLink "ann" calendly "https://calendly.com/ann";
     mkLink "cat" google "https://calendar.google.com/cat";
     mkLink "bob" calendly "https://calendly.com/bob"] 30
  = Some (fetch_one (H := Samples.zones) Samples.provider 30 <$>
      [mkLink "ann" calendly "https://calendly.com/ann";
       mkLink "cat" google "https://calendar.google.com/cat";
       mkLink "bob" calendly "https://calendly.com/bob"]).
Proof.
  apply (@fetch_keeps_link_order Samples.zones).
  simpl. rewrite (Permutation_swap 0%nat 2%nat [1%nat]).
  apply perm_skip, Permutation_swap.
Defined.

(** ** The overlap service and the request path *)

Section Service.
Context `{TimeZones} (provider : AvailabilityProvider) (perSourceTimeout : Z).

Lemma failures_of_complete (outcomes : list FetchOutcome) (o : FetchOutcome) :
  o ∈ outcomes → (∀ s, o ≠ Fetched s) →
  ∃ f, o = Failed f ∧ f ∈ failures_of outcomes.
Proof.
  intros Hin Hfail. destruct o as [s|f]; [by destruct (Hfail s)|].
  exists f. split; [done|]. apply list_elem_of_omap. by exists (Failed f).
Qed.

Lemma failures_of_sound (outcomes : list FetchOutcome) (f : FetchFailure) :
  f ∈ failures_of outcomes → Failed f ∈ outcomes.
Proof.
  intros (o & Hin & Ho)%list_elem_of_omap. destruct o; [done|].
  by injection Ho as ->.
Qed.

(** C1. When fewer than two sources succeed, [computeOverlap] fails
    with InsufficientSourcesError, and the error carries the failure of
    every link that failed, under the source id of that link, and
    nothing else.  In the request path of the wizard, the server action
    and the form go on only with at least two calendar links. *)
Theorem too_few_sources (links : list CalendarLink) (completion : list nat)
    (minDuration : option Z) :
  completion ≡ₚ seq 0 (length links) →
  (length (successes (fetch_one provider perSourceTimeout <$> links)) < 2)%nat →
  (∃ fs,
     computeOverlap provider completion links minDuration perSourceTimeout
       = Some (Err (InsufficientSourcesError fs)) ∧
     (∀ link, link ∈ links →
        (∀ s, fetch_one provider perSourceTimeout link ≠ Fetched s) →
        ∃ f, f ∈ fs ∧ failed_sourceId f = link_sourceId link ∧
             fetch_one provider perSourceTimeout link = Failed f) ∧
     (∀ f, f ∈ fs →
        ∃ link, link ∈ links ∧ fetch_one provider perSourceTimeout link = Failed f)) ∧
  (∀ (P : Platform) formData r,
     Actions.findAvailability formData = Returned r → Actions.success r = true →
     ∃ props items, formData = JObj props ∧ getProp "links" props = JArr items ∧
                    (2 ≤ length items)%nat) ∧
  (∀ (P : Platform) v data,
     safeParse CalendarForm.FormSchema v = Returned (ParseSuccess data) →
     ∃ props items, v = JObj props ∧ getProp "links" props = JArr items ∧
                    (2 ≤ length items)%nat ∧
                    length (CalendarForm.links data) = length items).
Proof.
  intros Hperm Hfew. split; [|split].
  - exists (failures_of (fetch_one provider perSourceTimeout <$> links)).
    split; [|split].
    + unfold computeOverlap. rewrite fetch_all_outcomes by done. simpl.
      unfold overlap_of.
      by destruct (Nat.ltb_spec
                     (length (successes (fetch_one provider perSourceTimeout <$> links))) 2);
        [|lia].
    + intros link Hin Hfail.
      destruct (failures_of_complete
                  (fetch_one provider perSourceTimeout <$> links)
                  (fetch_one provider perSourceTimeout link)) as (f & Hf & Hfin);
        [by apply list_elem_of_fmap_2 | done |].
      exists f. split; [done|]. split; [|done].
      pose proof (fetch_one_sourceId provider perSourceTimeout link) as Hid.
      by rewrite Hf in Hid.
    + intros f Hf%failures_of_sound.
      apply list_elem_of_fmap in Hf as (link & Heq & Hin). by exists link.
  - intros P formData r. apply findAvailability_two_links.
  - intros P v data. apply FormSchema_two_links.
Qed.
End Service.

Lemma too_few_sources_witness :
  ∃ fs,
    computeOverlap (H := Samples.zones) Samples.provider [1; 2; 0]%nat
      [mkLink "ann" calendly "https://calendly.com/ann";
       mkLink "cat" google "https://calendar.google.com/cat";
       mkLink "dan" calendly "https://calendly.com/dan"] None 30
    = Some (Err (InsufficientSourcesError fs)) ∧
    fs = [mkFailure "cat" Timeout; mkFailure "dan" InvalidLink].
Proof.
  destruct (@too_few_sources Samples.zones Samples.provider 30
              [mkLink "ann" calendly "https://calendly.com/ann";
               mkLink "cat" google "https://calendar.google.com/cat";
               mkLink "dan" calendly "https://calendly.com/dan"]
              [1; 2; 0]%nat None) as [(fs & Hfs & _) _].
  - simpl. etrans; [apply perm_skip, Permutation_swap | apply Permutation_swap].
  - vm_compute. lia.
  - exists fs. split; [exact Hfs|].
    vm_compute in Hfs. by injection Hfs as <-.
Defined.

(** The service on the cases of the specification: a partial failure,
    and one success out of three. *)
Example computeOverlap_examples :
  computeOverlap (H := Samples.zones) Samples.provider [2; 0; 1]%nat
    [mkLink "ann" calendly "https://calendly.com/ann";
     mkLink "cat" google "https://calendar.google.com/cat";
     mkLink "bob" calendly "https://calendly.com/bob"] None 30
  = Some (Ok (mkOverlap [mkSlot 600 660; mkSlot 690 720] [mkFailure "cat" Timeout])) ∧
  computeOverlap (H := Samples.zones) Samples.provider [0; 1; 2]%nat
    [mkLink "ann" calendly "https://calendly.com/ann";
     mkLink "cat" google "https://calendar.google.com/cat";
     mkLink "dan" calendly "https://calendly.com/dan"] (Some 30) 30
  = Some (Err (InsufficientSourcesError
                 [mkFailure "cat" Timeout; mkFailure "dan" InvalidLink])).
Proof. split; reflexivity. Qed.

(** * Further properties of the sources *)

(** ** The localStorage helpers *)

Section StorageHelpers.
Context `{Storage.Browser}.

(** X1. [saveData] never throws; in a browser it leaves every other key
    of the store as it was, and the store is either unchanged or holds a
    new text under the key; outside a browser it does nothing. *)
Theorem saveData_touches_its_key_only (key : string) (v : JsValue)
    (store : gmap string string) :
  (∃ store',
     Storage.saveData key v (Some store) = Returned (Some store') ∧
     (∀ key', key' ≠ key → store' !! key' = store !! key') ∧
     (store' = store ∨ ∃ text, store' = <[key := text]> store)) ∧
  Storage.saveData key v None = Returned None.
Proof.
  split; [|reflexivity]. unfold Storage.saveData, Storage.setItem.
  destruct (Storage.JSON_stringify v) as [text|e]; simpl.
  - destruct (Storage.setItem_throws store key (Storage.toStringArg text)); simpl.
    + exists store. repeat split; auto.
    + exists (<[key := Storage.toStringArg text]> store). repeat split.
      * intros key' Hne. by apply lookup_insert_ne.
      * right. by eexists.
  - exists store. repeat split; auto.
Qed.

(** X2. When [JSON.stringify] throws on the value, or [setItem] throws
    on the text, [saveData] swallows the exception and the store is what
    it was. *)
Theorem saveData_failure_keeps_store (key : string) (v : JsValue)
    (store : gmap string string) :
  ((∃ e, Storage.JSON_stringify v = Thrown e) ∨
   (∃ text e, Storage.JSON_stringify v = Returned text ∧
              Storage.setItem_throws store key (Storage.toStringArg text) = Some e)) →
  Storage.saveData key v (Some store) = Returned (Some store).
Proof.
  unfold Storage.saveData, Storage.setItem.
  intros [[e ->]|(text & e & -> & Hset)]; simpl; [done|]. by rewrite Hset.
Qed.

(** X3. [loadData] never throws, and it answers [null] outside a
    browser, for a key the store does not hold, when [getItem] throws and
    when the stored text is not JSON. *)
Theorem loadData_null_cases (key : string) (window : option (gmap string string)) :
  ∃ v, Storage.loadData key window = Returned v ∧
    (window = None → v = JNull) ∧
    (∀ store, window = Some store →
       ((∃ e, Storage.getItem_throws store key = Some e) → v = JNull) ∧
       (store !! key = None → v = JNull) ∧
       (∀ text e, store !! key = Some text → Storage.JSON_parse text = Thrown e →
                  v = JNull)).
Proof.
  destruct window as [store|]; simpl.
  2:{ exists JNull. split; [done|]. split; [done|]. intros store. discriminate. }
  unfold Storage.getItem.
  destruct (Storage.getItem_throws store key) as [e|] eqn:Hget; simpl.
  { exists JNull. split; [done|]. split; [done|]. intros store' _. done. }
  destruct (store !! key) as [text|] eqn:Hk; simpl.
  - destruct (Storage.JSON_parse text) as [v|e] eqn:Hp; simpl.
    + exists v. split; [done|]. split; [done|]. intros store' [= <-].
      rewrite Hget, Hk. split; [|split].
      * by intros [e ?].
      * done.
      * intros text' e [= <-]. by rewrite Hp.
    + exists JNull. split; [done|]. split; [done|]. intros store' _. done.
  - exists JNull. split; [done|]. split; [done|]. intros store' _. done.
Qed.

(** X4. A value for which [JSON.stringify] answers [undefined] is stored
    as the text "undefined"; where [JSON.parse] rejects that text,
    [loadData] then answers [null], so the value does not come back. *)
Theorem undefined_does_not_round_trip (key : string) (v : JsValue)
    (store : gmap string string) (e : exn) :
  Storage.JSON_stringify v = Returned None →
  Storage.JSON_parse "undefined" = Thrown e →
  Storage.setItem_throws store key "undefined" = None →
  Storage.saveData key v (Some store) = Returned (Some (<[key := "undefined"]> store)) ∧
  Storage.loadData key (Some (<[key := "undefined"]> store)) = Returned JNull.
Proof.
  intros Hs Hp Hset. split.
  - by rewrite (saveData_stores key v store None Hs Hset).
  - unfold Storage.loadData, Storage.getItem.
    destruct (Storage.getItem_throws _ key); simpl; [done|].
    rewrite lookup_insert_eq. by rewrite Hp.
Qed.

Context `{Removal.RemoveItem}.

(** X5. [removeData] never throws and leaves every other key as it was;
    when [removeItem] does not throw, the key is gone and [loadData]
    answers [null] for it, whatever was saved before. *)
Theorem removeData_forgets_the_key (key : string) (store : gmap string string) :
  (∃ store',
     Removal.removeData key (Some store) = Returned (Some store') ∧
     (∀ key', key' ≠ key → store' !! key' = store !! key') ∧
     (Removal.removeItem_throws store key = None →
        store' !! key = None ∧ Storage.loadData key (Some store') = Returned JNull)) ∧
  Removal.removeData key None = Returned None.
Proof.
  split; [|reflexivity]. unfold Removal.removeData, Removal.removeItem.
  destruct (Removal.removeItem_throws store key) as [e|]; simpl.
  - exists store. repeat split; done.
  - exists (delete key store). split; [done|]. split.
    + intros key' Hne. by apply lookup_delete_ne.
    + intros _. split; [apply lookup_delete_eq|].
      unfold Storage.loadData, Storage.getItem.
      destruct (Storage.getItem_throws _ key); simpl; [done|].
      by rewrite lookup_delete_eq.
Qed.
End StorageHelpers.

Lemma saveData_failure_keeps_store_witness :
  Storage.saveData (H := FullStorage.browser) "wizard" (JBool true)
    (Some {["older" := "null"]})
  = Returned (Some {["older" := "null"]}).
Proof.
  apply (@saveData_failure_keeps_store FullStorage.browser).
  right. exists (Some "true"), (DOMException "QuotaExceededError").
  split; reflexivity.
Defined.

Lemma undefined_does_not_round_trip_witness :
  Storage.saveData (H := Samples.browser) "wizard" JUndefined (Some ∅)
    = Returned (Some (<["wizard" := "undefined"]> ∅)) ∧
  Storage.loadData (H := Samples.browser) "wizard" (Some (<["wizard" := "undefined"]> ∅))
    = Returned JNull.
Proof.
  apply (@undefined_does_not_round_trip Samples.browser "wizard" JUndefined ∅
           (SyntaxError "Unexpected token")); reflexivity.
Defined.

(** ** The token retrieval *)

Section TokenSuccess.
Context {Client : Type} (sdk : Clerk.Sdk Client).

(** X6. [getGoogleOauthToken] answers with a token exactly when the user
    is authenticated, both calls into the SDK return, and the first entry
    of the response holds a non-empty token; the token it answers with is
    that of the first entry, never the empty string, and the call is made
    for the authenticated user and the provider "oauth_google". *)
Theorem token_success_iff (tok : string) :
  Clerk.getGoogleOauthToken sdk = Returned (Clerk.mkResult true (Some tok) None) ↔
  ∃ a uid c resp first rest,
    Clerk.auth sdk = Returned a ∧ Clerk.userId a = Some uid ∧ uid ≠ "" ∧
    Clerk.clerkClient sdk = Returned c ∧
    Clerk.getUserOauthAccessToken sdk c uid "oauth_google" = Returned resp ∧
    Clerk.data resp = first :: rest ∧ Clerk.token first = tok ∧ tok ≠ "".
Proof.
  split.
  - unfold Clerk.getGoogleOauthToken.
    destruct (Clerk.auth sdk) as [a|] eqn:Ha; simpl; [|discriminate].
    destruct (Clerk.userId a) as [uid|] eqn:Hu; simpl; [|discriminate].
    unfold truthy_string.
    destruct (String.eqb_spec uid "") as [->|Hne]; simpl; [discriminate|].
    destruct (Clerk.clerkClient sdk) as [c|] eqn:Hc; simpl; [|discriminate].
    destruct (Clerk.getUserOauthAccessToken sdk c uid "oauth_google")
      as [resp|] eqn:Hr; simpl; [|discriminate].
    destruct (Clerk.data resp) as [|first rest] eqn:Hd; simpl; [discriminate|].
    destruct (String.eqb_spec (Clerk.token first) "") as [Ht|Ht]; simpl; [discriminate|].
    intros [= <-]. by exists a, uid, c, resp, first, rest.
  - intros (a & uid & c & resp & first & rest & Ha & Hu & Hne & Hc & Hr & Hd & <- & Ht).
    by apply (token_found sdk a uid c resp first rest).
Qed.
End TokenSuccess.

(** ** The link field of the form *)

Section LinkField.
Context `{Platform}.

Lemma isValidCalendarUrl_true (text : string) :
  CalendarForm.isValidCalendarUrl text = Returned true ↔
  ∃ u, new_URL text = Returned u ∧ CalendarForm.calendar_host (hostname u).
Proof.
  unfold CalendarForm.isValidCalendarUrl.
  destruct (new_URL text) as [u|e]; unfold mbind, outcome_bind, try_catch.
  - split.
    + intros [= Hh]. exists u. split; [done|]. by apply includes_calendar_host.
    + intros (u' & [= <-] & Hh). f_equal. by apply includes_calendar_host.
  - split; [discriminate|]. by intros (u & ? & _).
Qed.

Lemma isValidCalendarUrl_false (text : string) :
  CalendarForm.isValidCalendarUrl text = Returned false ↔
  ¬ ∃ u, new_URL text = Returned u ∧ CalendarForm.calendar_host (hostname u).
Proof.
  rewrite <- isValidCalendarUrl_true.
  destruct (isValidCalendarUrl_returns text) as [b ->]. destruct b.
  - split; [discriminate | intros Hn; by destruct Hn].
  - split; [intros _; discriminate | done].
Qed.

Lemma form_LinkSchema_string p props text :
  getProp "value" props = JStr text →
  CalendarForm.LinkSchema p (JObj props) =
    (ok ← CalendarForm.isValidCalendarUrl text;
     Returned (mkParse
       ((match new_URL text with
         | Returned _ => []
         | Thrown _ => [mkIssue invalid_string (p ++ [Key "value"])
                          (Some Accepted.url_message)]
         end) ++
        (if ok : bool then []
         else [mkIssue custom (p ++ [Key "value"]) (Some Accepted.host_message)]))
       (Some (CalendarForm.mkLink text)))).
Proof.
  intros Hv. unfold CalendarForm.LinkSchema, object1, field, refine, string_url.
  rewrite Hv.
  destruct (isValidCalendarUrl_returns text) as [ok Hok]. rewrite Hok.
  destruct (new_URL text); simpl; rewrite Hok; simpl; destruct ok; simpl;
    by rewrite ?app_nil_r.
Qed.

(** X7. For a link whose value is a string, the form schema keeps the
    text and reports: both "Please enter a valid URL." and the host
    message when the text does not parse as a URL; the host message alone
    when it parses with another hostname; nothing when the hostname is
    one of the three calendar hosts. *)
Theorem link_field_messages (p : list PathSeg) (props : list (string * JsValue))
    (text : string) :
  getProp "value" props = JStr text →
  ∃ r, CalendarForm.LinkSchema p (JObj props) = Returned r ∧
       output r = Some (CalendarForm.mkLink text) ∧
       (∀ e, new_URL text = Thrown e →
          issues r = [mkIssue invalid_string (p ++ [Key "value"]) (Some Accepted.url_message);
                      mkIssue custom (p ++ [Key "value"]) (Some Accepted.host_message)]) ∧
       (∀ u, new_URL text = Returned u → ¬ CalendarForm.calendar_host (hostname u) →
          issues r = [mkIssue custom (p ++ [Key "value"]) (Some Accepted.host_message)]) ∧
       (∀ u, new_URL text = Returned u → CalendarForm.calendar_host (hostname u) →
          issues r = []).
Proof.
  intros Hv. rewrite (form_LinkSchema_string p props text Hv).
  destruct (CalendarForm.isValidCalendarUrl text) as [ok|e] eqn:Hok.
  2:{ destruct (isValidCalendarUrl_returns text) as [b Hb]. congruence. }
  simpl. eexists. split; [reflexivity|]. split; [reflexivity|]. simpl.
  split; [|split].
  - intros e He. rewrite He.
    destruct ok; [|done].
    apply isValidCalendarUrl_true in Hok as (u & Hu & _). congruence.
  - intros u Hu Hh. rewrite Hu.
    destruct ok; [|done].
    apply isValidCalendarUrl_true in Hok as (u' & Hu' & Hh'). congruence.
  - intros u Hu Hh. rewrite Hu.
    destruct ok; [done|].
    apply isValidCalendarUrl_false in Hok. destruct Hok. by exists u.
Qed.
End LinkField.

Lemma link_field_messages_witness :
  ∃ r, @CalendarForm.LinkSchema Samples.platform [Key "links"; Idx 0]
         (JObj [("value", JStr "https://example.org/ann")]) = Returned r ∧
       output r = Some (CalendarForm.mkLink "https://example.org/ann").
Proof.
  destruct (@link_field_messages Samples.platform [Key "links"; Idx 0]
              [("value", JStr "https://example.org/ann")] "https://example.org/ann")
    as (r & Hr & Ho & _).
  - reflexivity.
  - by exists r.
Defined.

(** ** What the two schemas accept *)

Section Acceptance.
Context `{Platform}.

Lemma refine_output {T} (inner : Schema T) check msg p v r x :
  refine inner check msg p v = Returned r → output r = Some x →
  ∃ r', inner p v = Returned r' ∧ output r' = Some x.
Proof.
  unfold refine. intros Hr Ho.
  apply bind_Returned in Hr as (r0 & Hr0 & Hr). exists r0. split; [done|].
  destruct (output r0) as [y|] eqn:Hy.
  - apply bind_Returned in Hr as (ok & _ & Hr). injection Hr as <-.
    destruct ok; [congruence|]. simpl in Ho. congruence.
  - injection Hr as <-. congruence.
Qed.

Lemma string_url_output msg p v r text :
  string_url msg p v = Returned r → output r = Some text →
  v = JStr text ∧ (issues r = [] → returns (new_URL text)).
Proof.
  unfold string_url. destruct v; try (intros [= <-]; discriminate).
  destruct (new_URL s) as [u|e] eqn:Hu; intros [= <-]; simpl; intros [= <-].
  - split; [done|]. intros _. by exists u.
  - split; [done|]. discriminate.
Qed.

Lemma object1_clean {A R} k (s : Schema A) (mk : A → R) p v r d :
  object1 k s mk p v = Returned r → issues r = [] → output r = Some d →
  ∃ props r1 a, v = JObj props ∧ s (p ++ [Key k]) (getProp k props) = Returned r1 ∧
                issues r1 = [] ∧ output r1 = Some a ∧ d = mk a.
Proof.
  unfold object1, field. intros Hr Hi Ho.
  destruct v; try (injection Hr as <-; discriminate).
  apply bind_Returned in Hr as (r1 & Hr1 & Hr). injection Hr as <-.
  simpl in Hi, Ho. destruct (output r1) as [a|] eqn:Ha; [|discriminate].
  injection Ho as <-. by exists props, r1, a.
Qed.

Lemma parse_items_clean_inv {T} (elem : Schema T) (R : JsValue → T → Prop) :
  (∀ q v r x, elem q v = Returned r → issues r = [] → output r = Some x → R v x) →
  ∀ p i items r xs,
    parse_items elem p i items = Returned r → issues r = [] → output r = Some xs →
    Forall2 R items xs.
Proof.
  intros Helem p i items. revert i.
  induction items as [|v rest IH]; intros i r xs; simpl.
  - intros [= <-] _ [= <-]. constructor.
  - intros Hr Hi Ho. apply bind_Returned in Hr as (r1 & Hr1 & Hr).
    apply bind_Returned in Hr as (rs & Hrs & Hr). injection Hr as <-.
    simpl in Hi, Ho. apply app_eq_nil in Hi as [Hi1 His].
    destruct (output r1) as [x|] eqn:Hx; [|discriminate].
    destruct (output rs) as [ys|] eqn:Hys; [|discriminate].
    injection Ho as <-. constructor; [by eapply Helem | by eapply IH].
Qed.

Lemma parse_items_clean {T} (elem : Schema T) (R : JsValue → T → Prop) :
  (∀ q v x, R v x → elem q v = Returned (mkParse [] (Some x))) →
  ∀ p i items xs,
    Forall2 R items xs →
    parse_items elem p i items = Returned (mkParse [] (Some xs)).
Proof.
  intros Helem p i items xs Hall. revert i.
  induction Hall as [|v x rest xs Hvx _ IH]; intros i; simpl; [done|].
  rewrite (Helem _ _ _ Hvx). simpl. by rewrite IH.
Qed.

Lemma array_min_clean_iff {T} (elem : Schema T) (R : JsValue → T → Prop) n msg p v xs :
  (∀ q w r x, elem q w = Returned r → issues r = [] → output r = Some x → R w x) →
  (∀ q w x, R w x → elem q w = Returned (mkParse [] (Some x))) →
  (∀ q w, returns (elem q w)) →
  (∃ r, array_min elem n msg p v = Returned r ∧ issues r = [] ∧ output r = Some xs) ↔
  ∃ items, v = JArr items ∧ (n ≤ length items)%nat ∧ Forall2 R items xs.
Proof.
  intros Hinv Hok Hret. split.
  - intros (r & Hr & Hi & Ho).
    destruct (array_min_clean _ _ _ _ _ _ Hr Hi) as (items & -> & Hlen).
    exists items. split; [done|]. split; [done|].
    unfold array_min in Hr. apply bind_Returned in Hr as (rs & Hrs & Hr).
    injection Hr as <-. simpl in Hi, Ho. apply app_eq_nil in Hi as [_ Hi].
    by eapply parse_items_clean_inv.
  - intros (items & -> & Hlen & Hall). unfold array_min.
    rewrite (parse_items_clean elem R Hok p 0%nat items xs Hall). simpl.
    apply Nat.ltb_ge in Hlen. rewrite Hlen. by eexists.
Qed.

(** The link schema of the form. *)
Lemma form_link_inv q v r l :
  CalendarForm.LinkSchema q v = Returned r → issues r = [] → output r = Some l →
  Accepted.calendar_link v (CalendarForm.value l).
Proof.
  intros Hr Hi Ho. unfold CalendarForm.LinkSchema in Hr.
  destruct (object1_clean _ _ _ _ _ _ _ Hr Hi Ho)
    as (props & r1 & text & -> & Hr1 & Hi1 & Ho1 & ->).
  pose proof (refine_clean _ _ _ _ _ _ _ Hr1 Hi1 Ho1) as Hvalid.
  destruct (refine_output _ _ _ _ _ _ _ Hr1 Ho1) as (r' & Hr' & Ho').
  destruct (string_url_output _ _ _ _ _ Hr' Ho') as [Hv _].
  apply isValidCalendarUrl_true in Hvalid as (u & Hu & Hh).
  by exists props, u.
Qed.

Lemma form_link_ok q v text :
  Accepted.calendar_link v text →
  CalendarForm.LinkSchema q v = Returned (mkParse [] (Some (CalendarForm.mkLink text))).
Proof.
  intros (props & u & -> & Hv & Hu & Hh).
  rewrite (form_LinkSchema_string q props text Hv).
  assert (CalendarForm.isValidCalendarUrl text = Returned true) as ->.
  { apply isValidCalendarUrl_true. by exists u. }
  simpl. by rewrite Hu.
Qed.

(** The link schema of the action. *)
Lemma action_link_inv q v r l :
  Actions.LinkSchema q v = Returned r → issues r = [] → output r = Some l →
  Accepted.url_link v (Actions.value l).
Proof.
  intros Hr Hi Ho. unfold Actions.LinkSchema in Hr.
  destruct (object1_clean _ _ _ _ _ _ _ Hr Hi Ho)
    as (props & r1 & text & -> & Hr1 & Hi1 & Ho1 & ->).
  destruct (string_url_output _ _ _ _ _ Hr1 Ho1) as [Hv Hu].
  destruct (Hu Hi1) as [u Hu']. by exists props, u.
Qed.

Lemma action_link_ok q v text :
  Accepted.url_link v text →
  Actions.LinkSchema q v = Returned (mkParse [] (Some (Actions.mkLink text))).
Proof.
  intros (props & u & -> & Hv & Hu).
  unfold Actions.LinkSchema, object1, field, string_url. rewrite Hv. simpl.
  by rewrite Hu.
Qed.

(** The duration of the form. *)
Lemma form_duration_inv q v r n :
  CalendarForm.durationSchema q v = Returned r → issues r = [] → output r = Some n →
  Number v = n ∧ includes_num CalendarForm.allowedDurations n = true.
Proof.
  intros Hr Hi Ho. split; [|by eapply durationSchema_output].
  unfold CalendarForm.durationSchema in Hr.
  destruct (refine_output _ _ _ _ _ _ _ Hr Ho) as (r' & Hr' & Ho').
  unfold coerce_number in Hr'.
  destruct (Number v); injection Hr' as <-; simpl in Ho'; congruence.
Qed.

Lemma form_duration_ok q v n :
  Number v = n → includes_num CalendarForm.allowedDurations n = true →
  CalendarForm.durationSchema q v = Returned (mkParse [] (Some n)).
Proof.
  intros Hn Hin. rewrite (durationSchema_number q v n Hn).
  - by rewrite Hin.
  - intros ->. discriminate.
Qed.

(** The duration of the action. *)
Lemma action_duration_inv q v r n :
  number_int_positive q v = Returned r → issues r = [] → output r = Some n →
  v = JNum n ∧ isInteger n = true ∧ num_le n (ofZ 0) = false.
Proof.
  unfold number_int_positive.
  destruct v as [| | |m| | |]; try (intros [= <-]; discriminate).
  destruct m as [| | |x]; intros Hr Hi Ho; injection Hr as <-.
  - discriminate.
  - discriminate.
  - discriminate.
  - unfold issues in Hi. apply app_eq_nil in Hi as [Hint Hle].
    simpl in Ho. injection Ho as <-. split; [done|]. split.
    + unfold isInteger. by destruct (Qnum x `mod` Z.pos (Qden x) =? 0).
    + unfold num_le, ofZ. by destruct (Qle_bool x (inject_Z 0)).
Qed.

Lemma action_duration_ok q n :
  isInteger n = true → num_le n (ofZ 0) = false →
  number_int_positive q (JNum n) = Returned (mkParse [] (Some n)).
Proof.
  intros Hint Hle. unfold number_int_positive.
  destruct n; try discriminate. by rewrite Hint, Hle.
Qed.
End Acceptance.

Section AcceptanceTheorems.
Context `{Platform}.

Lemma form_links_clean_iff p v ls :
  (∃ r, array_min CalendarForm.LinkSchema 2
          (Some "Please provide at least two calendar links.") p v
        = Returned r ∧ issues r = [] ∧ output r = Some ls) ↔
  ∃ items, v = JArr items ∧ (2 ≤ length items)%nat ∧ Forall2 Accepted.form_link_rel items ls.
Proof.
  apply array_min_clean_iff.
  - intros q w r x. apply form_link_inv.
  - intros q w [text] Hrel. by apply form_link_ok.
  - apply form_LinkSchema_returns.
Qed.

Lemma action_links_clean_iff p v ls :
  (∃ r, array_min Actions.LinkSchema 2 None p v
        = Returned r ∧ issues r = [] ∧ output r = Some ls) ↔
  ∃ items, v = JArr items ∧ (2 ≤ length items)%nat ∧ Forall2 Accepted.action_link_rel items ls.
Proof.
  apply array_min_clean_iff.
  - intros q w r x. apply action_link_inv.
  - intros q w [text] Hrel. by apply action_link_ok.
  - apply action_LinkSchema_returns.
Qed.

Lemma FormSchema_success_inv v data :
  safeParse CalendarForm.FormSchema v = Returned (ParseSuccess data) →
  ∃ props items,
    v = JObj props ∧ getProp "links" props = JArr items ∧ (2 ≤ length items)%nat ∧
    Forall2 Accepted.form_link_rel items (CalendarForm.links data) ∧
    Number (getProp "duration" props) = CalendarForm.duration data ∧
    includes_num CalendarForm.allowedDurations (CalendarForm.duration data) = true.
Proof.
  intros Hp. apply safeParse_success in Hp as (pr & Hpr & Hi & Ho).
  destruct (object2_clean _ _ _ _ _ _ _ _ _ Hpr Hi Ho)
    as (props & r1 & r2 & a & b & -> & Hr1 & Hi1 & Ha & Hr2 & Hi2 & Hb & ->).
  destruct (proj1 (form_links_clean_iff ([] ++ [Key "links"]) (getProp "links" props) a)) as (items & Hitems & Hlen & Hall).
  { by exists r1. }
  destruct (form_duration_inv _ _ _ _ Hr2 Hi2 Hb) as [Hnum Hin].
  by exists props, items.
Qed.

Lemma FormSchema_success_intro props items data :
  getProp "links" props = JArr items → (2 ≤ length items)%nat →
  Forall2 Accepted.form_link_rel items (CalendarForm.links data) →
  Number (getProp "duration" props) = CalendarForm.duration data →
  includes_num CalendarForm.allowedDurations (CalendarForm.duration data) = true →
  safeParse CalendarForm.FormSchema (JObj props) = Returned (ParseSuccess data).
Proof.
  intros Hitems Hlen Hall Hnum Hin. unfold safeParse. rewrite FormSchema_unfold.
  destruct (proj2 (form_links_clean_iff [Key "links"] (getProp "links" props)
                     (CalendarForm.links data))) as (r1 & -> & Hi1 & Ho1).
  { by exists items. }
  rewrite (form_duration_ok _ _ _ Hnum Hin). simpl. rewrite Hi1, Ho1. simpl.
  by destruct data.
Qed.

Lemma FindAvailabilitySchema_success_inv v data :
  safeParse Actions.FindAvailabilitySchema v = Returned (ParseSuccess data) →
  ∃ props items,
    v = JObj props ∧ getProp "links" props = JArr items ∧ (2 ≤ length items)%nat ∧
    Forall2 Accepted.action_link_rel items (Actions.links data) ∧
    getProp "duration" props = JNum (Actions.duration data) ∧
    isInteger (Actions.duration data) = true ∧
    num_le (Actions.duration data) (ofZ 0) = false.
Proof.
  intros Hp. apply safeParse_success in Hp as (pr & Hpr & Hi & Ho).
  destruct (object2_clean _ _ _ _ _ _ _ _ _ Hpr Hi Ho)
    as (props & r1 & r2 & a & b & -> & Hr1 & Hi1 & Ha & Hr2 & Hi2 & Hb & ->).
  destruct (proj1 (action_links_clean_iff ([] ++ [Key "links"]) (getProp "links" props) a)) as (items & Hitems & Hlen & Hall).
  { by exists r1. }
  destruct (action_duration_inv _ _ _ _ Hr2 Hi2 Hb) as (Hd & Hint & Hle).
  by exists props, items.
Qed.

Lemma FindAvailabilitySchema_success_intro props items data :
  getProp "links" props = JArr items → (2 ≤ length items)%nat →
  Forall2 Accepted.action_link_rel items (Actions.links data) →
  getProp "duration" props = JNum (Actions.duration data) →
  isInteger (Actions.duration data) = true →
  num_le (Actions.duration data) (ofZ 0) = false →
  safeParse Actions.FindAvailabilitySchema (JObj props) = Returned (ParseSuccess data).
Proof.
  intros Hitems Hlen Hall Hd Hint Hle. unfold safeParse.
  rewrite FindAvailabilitySchema_unfold.
  destruct (proj2 (action_links_clean_iff [Key "links"] (getProp "links" props)
                     (Actions.links data))) as (r1 & -> & Hi1 & Ho1).
  { by exists items. }
  rewrite Hd, (action_duration_ok _ _ Hint Hle). simpl. rewrite Hi1, Ho1. simpl.
  by destruct data.
Qed.

Lemma findAvailability_two_answers formData :
  Actions.findAvailability formData =
    (vr ← safeParse Actions.FindAvailabilitySchema formData;
     Returned (if Zod.success vr then Accepted.accepted else Accepted.rejected)).
Proof.
  unfold Actions.findAvailability.
  destruct (safeParse Actions.FindAvailabilitySchema formData) as [[d|errs]|e]; done.
Qed.

(** X8. The form schema accepts a value exactly when it is an object
    whose [links] is an array of at least two objects, each with a string
    [value] that parses as a URL on one of the calendar hosts, and whose
    [duration] coerces to one of the allowed durations; the parsed data
    are those link texts and that number. *)
Theorem FormSchema_accepts_iff (v : JsValue) (data : CalendarForm.FormValues) :
  safeParse CalendarForm.FormSchema v = Returned (ParseSuccess data) ↔
  ∃ props items,
    v = JObj props ∧ getProp "links" props = JArr items ∧ (2 ≤ length items)%nat ∧
    Forall2 Accepted.calendar_link items (CalendarForm.value <$> CalendarForm.links data) ∧
    Number (getProp "duration" props) = CalendarForm.duration data ∧
    includes_num CalendarForm.allowedDurations (CalendarForm.duration data) = true.
Proof.
  split.
  - intros Hp. destruct (FormSchema_success_inv v data Hp)
      as (props & items & Hv & Hitems & Hlen & Hall & Hnum & Hin).
    exists props, items. repeat split; try done. exact (proj2 (Forall2_fmap_r _ _ _ _) Hall).
  - intros (props & items & -> & Hitems & Hlen & Hall & Hnum & Hin).
    apply (FormSchema_success_intro props items data Hitems Hlen); [|done..].
    exact (proj1 (Forall2_fmap_r _ _ _ _) Hall).
Qed.

(** X9. The server action has two answers only: it answers with
    success exactly when the data are an object whose [links] is an array
    of at least two objects, each with a string [value] that parses as a
    URL, and whose [duration] is an integer number above zero; otherwise
    it answers "Invalid form data provided.".  The text "Failed to
    process calendar links" is never returned. *)
Theorem findAvailability_accepts_iff (formData : JsValue) :
  (Actions.findAvailability formData = Returned Accepted.accepted ∨
   Actions.findAvailability formData = Returned Accepted.rejected) ∧
  (Actions.findAvailability formData = Returned Accepted.accepted ↔
   ∃ props items texts n,
     formData = JObj props ∧ getProp "links" props = JArr items ∧
     (2 ≤ length items)%nat ∧ Forall2 Accepted.url_link items texts ∧
     getProp "duration" props = JNum n ∧ isInteger n = true ∧ num_le n (ofZ 0) = false).
Proof.
  rewrite findAvailability_two_answers.
  destruct (safeParse_returns Actions.FindAvailabilitySchema formData
              (FindAvailabilitySchema_returns [] formData)) as [vr Hvr].
  rewrite Hvr. simpl. split.
  - destruct vr; simpl; auto.
  - split.
    + destruct vr as [data|errs]; simpl; [intros _|discriminate].
      destruct (FindAvailabilitySchema_success_inv _ _ Hvr)
        as (props & items & Hv & Hitems & Hlen & Hall & Hd & Hint & Hle).
      exists props, items, (Actions.value <$> Actions.links data), (Actions.duration data).
      repeat split; try done. exact (proj2 (Forall2_fmap_r _ _ _ _) Hall).
    + intros (props & items & texts & n & -> & Hitems & Hlen & Hall & Hd & Hint & Hle).
      assert (safeParse Actions.FindAvailabilitySchema (JObj props)
              = Returned (ParseSuccess (Actions.mkData (Actions.mkLink <$> texts) n))) as Hok.
      { apply (FindAvailabilitySchema_success_intro props items
                 (Actions.mkData (Actions.mkLink <$> texts) n) Hitems Hlen); [|done..].
        simpl. apply (proj2 (Forall2_fmap_r _ _ _ _)).
        eapply Forall2_impl; [exact Hall|]. by intros item text. }
      rewrite Hok in Hvr. by injection Hvr as <-.
Qed.
End AcceptanceTheorems.

(** ** From the form to the server action *)

Section FormToAction.
Context `{Platform}.

Lemma durationSchema_returns p v : returns (CalendarForm.durationSchema p v).
Proof.
  apply refine_returns; [apply coerce_number_returns | intros x; by eexists].
Qed.

Lemma FormSchema_returns p v : returns (CalendarForm.FormSchema p v).
Proof.
  unfold CalendarForm.FormSchema, object2, field. destruct v; try by eexists.
  destruct (form_links_returns (p ++ [Key "links"]) (getProp "links" props)) as [r1 ->].
  simpl.
  destruct (durationSchema_returns (p ++ [Key "duration"]) (getProp "duration" props))
    as [r2 ->].
  simpl. by eexists.
Qed.

Lemma sameValueZero_positive_integer (n : JsNum) (k : Z) :
  sameValueZero n (ofZ k) = true → 0 < k →
  isInteger n = true ∧ num_le n (ofZ 0) = false.
Proof.
  destruct n as [| | |q]; try discriminate. unfold sameValueZero, ofZ.
  intros Heq%Qeq_bool_iff Hk. unfold Qeq in Heq. simpl in Heq.
  unfold isInteger, num_le, Qle_bool. simpl. split.
  - apply Z.eqb_eq. replace (Qnum q) with (k * Z.pos (Qden q)) by lia.
    apply Z.mod_mul. lia.
  - apply Z.leb_gt. nia.
Qed.

Lemma allowed_positive_integer (n : JsNum) :
  includes_num CalendarForm.allowedDurations n = true →
  isInteger n = true ∧ num_le n (ofZ 0) = false.
Proof.
  unfold includes_num, CalendarForm.allowedDurations.
  intros (m & Hm & Heq)%existsb_exists.
  apply list_elem_of_In, list_elem_of_fmap in Hm as (k & -> & Hk).
  apply (sameValueZero_positive_integer n k Heq).
  repeat (apply elem_of_cons in Hk as [->|Hk]; [lia|]). by apply elem_of_nil in Hk.
Qed.

Lemma payload_parses (data : CalendarForm.FormValues) (v : JsValue) :
  safeParse CalendarForm.FormSchema v = Returned (ParseSuccess data) →
  safeParse Actions.FindAvailabilitySchema (FormControls.payload data)
  = Returned (ParseSuccess
      (Actions.mkData (Actions.mkLink <$> (CalendarForm.value <$> CalendarForm.links data))
                      (CalendarForm.duration data))).
Proof.
  intros Hp. destruct (FormSchema_success_inv v data Hp)
    as (props & items & _ & _ & Hlen & Hall & _ & Hin).
  destruct (allowed_positive_integer _ Hin) as [Hint Hle].
  unfold FormControls.payload, Actions.request.
  eapply (FindAvailabilitySchema_success_intro _
            ((λ u, JObj [("value", JStr u)]) <$> (CalendarForm.value <$> CalendarForm.links data))).
  - reflexivity.
  - rewrite !length_fmap. by rewrite <- (Forall2_length _ _ _ Hall).
  - simpl. apply (proj2 (Forall2_fmap_r _ _ _ _)). apply Forall2_fmap_l.
    apply Forall_Forall2_diag. apply Forall_fmap.
    clear -Hall. induction Hall as [|item l items ls Hrel _ IH]; constructor; [|done].
    destruct Hrel as (props & u & _ & _ & Hu & _). simpl.
    by exists [("value", JStr (CalendarForm.value l))], u.
  - reflexivity.
  - done.
  - done.
Qed.

(** X10. Data that the form schema accepts are never turned down by the
    server action: sent as [onSubmit] sends them, they pass the schema of
    the action with the same link texts and the same duration, the action
    answers "Availability check initiated successfully!", and [onSubmit]
    shows that text in a success toast. *)
Theorem form_data_pass_the_action (v : JsValue) (data : CalendarForm.FormValues) :
  safeParse CalendarForm.FormSchema v = Returned (ParseSuccess data) →
  (∃ accepted,
     safeParse Actions.FindAvailabilitySchema (FormControls.payload data)
       = Returned (ParseSuccess accepted) ∧
     Actions.value <$> Actions.links accepted
       = CalendarForm.value <$> CalendarForm.links data ∧
     Actions.duration accepted = CalendarForm.duration data) ∧
  Actions.findAvailability (FormControls.payload data)
    = Returned (Actions.mkResult true
                  (Some "Availability check initiated successfully!") None None) ∧
  FormControls.onSubmit Actions.findAvailability data
    = Returned (FormControls.toast_success "Availability check initiated successfully!").
Proof.
  intros Hp. pose proof (payload_parses data v Hp) as Hparse.
  assert (Actions.findAvailability (FormControls.payload data)
          = Returned Accepted.accepted) as Hact.
  { rewrite findAvailability_two_answers. by rewrite Hparse. }
  split; [|split].
  - eexists. split; [exact Hparse|]. simpl. split; [|done].
    rewrite <- list_fmap_compose. by rewrite list_fmap_id.
  - exact Hact.
  - unfold FormControls.onSubmit. by rewrite Hact.
Qed.

Lemma or_else_not_empty (field : option string) (fallback : string) :
  fallback ≠ "" → FormControls.or_else field fallback ≠ "".
Proof.
  intros Hf. unfold FormControls.or_else, truthy_string.
  destruct field as [text|]; [|done].
  by destruct (String.eqb_spec text "").
Qed.

(** X11. [onSubmit] never throws and always ends with one toast whose
    text is not empty: the error toast "Failed to communicate with the
    server." when the call of the action throws, a success toast when the
    answer has [success] set and an error toast otherwise, with the text
    of the answer or, when that is missing or empty, the fallback text. *)
Theorem onSubmit_always_toasts (action : JsValue → outcome Actions.ActionResult)
    (data : CalendarForm.FormValues) :
  ∃ t, FormControls.onSubmit action data = Returned t ∧
       FormControls.toast_text t ≠ "" ∧
       (∀ e, action (FormControls.payload data) = Thrown e →
             t = FormControls.toast_error "Failed to communicate with the server.") ∧
       (∀ r, action (FormControls.payload data) = Returned r →
          (Actions.success r = true →
             t = FormControls.toast_success
                   (FormControls.or_else (Actions.message r) "Availability check started!")) ∧
          (Actions.success r = false →
             t = FormControls.toast_error
                   (FormControls.or_else (Actions.error r) "An unknown error occurred."))).
Proof.
  unfold FormControls.onSubmit.
  destruct (action (FormControls.payload data)) as [r|e]; simpl.
  - destruct (Actions.success r) eqn:Hs; simpl.
    + eexists. split; [done|]. split; [by apply or_else_not_empty|].
      split; [done|]. intros r' [= <-]. rewrite Hs. by split.
    + eexists. split; [done|]. split; [by apply or_else_not_empty|].
      split; [done|]. intros r' [= <-]. rewrite Hs. by split.
  - eexists. split; [done|]. split; [done|]. split; [done|]. discriminate.
Qed.

(** X12. Submitting the form with the server action behind it: when the
    values validate, the user gets the success toast "Availability check
    initiated successfully!"; when they do not, [onSubmit] does not run
    and the action is not called. *)
Theorem handleSubmit_outcomes (st : FormControls.FormState) :
  ∃ vr, safeParse CalendarForm.FormSchema (FormControls.values st) = Returned vr ∧
        FormControls.handleSubmit Actions.findAvailability st
        = Returned (if Zod.success vr
                    then Some (FormControls.toast_success
                                 "Availability check initiated successfully!")
                    else None) ∧
        (∀ action, Zod.success vr = false →
                   FormControls.handleSubmit action st = Returned None).
Proof.
  unfold FormControls.handleSubmit.
  destruct (safeParse CalendarForm.FormSchema (FormControls.values st))
    as [[data|errs]|e] eqn:Hvr.
  - exists (ParseSuccess data). split; [done|]. simpl.
    unfold FormControls.onSubmit. rewrite findAvailability_two_answers.
    rewrite (payload_parses data _ Hvr). simpl.
    split; [done|]. discriminate.
  - exists (ParseError errs). by split.
  - destruct (safeParse_returns CalendarForm.FormSchema (FormControls.values st)
                (FormSchema_returns [] (FormControls.values st))) as [vr Hr].
    congruence.
Qed.
End FormToAction.

Lemma form_data_pass_the_action_witness :
  Actions.findAvailability (H := Samples.platform)
    (FormControls.payload
       (CalendarForm.mkForm
          [CalendarForm.mkLink "https://calendly.com/ann";
           CalendarForm.mkLink "https://calendar.google.com/bob"] (ofZ 60)))
  = Returned (Actions.mkResult true
                (Some "Availability check initiated successfully!") None None).
Proof.
  apply (@form_data_pass_the_action Samples.platform
           (Actions.request ["https://calendly.com/ann"; "https://calendar.google.com/bob"]
                            (ofZ 60))).
  reflexivity.
Defined.

(** ** The controls of the form *)

Section Controls.
Local Open Scope nat_scope.

Lemma same_option_eq a b : FormControls.same_option a b = true → a = b.
Proof.
  unfold FormControls.same_option. destruct a as [va la], b as [vb lb]. simpl.
  intros [Hv%Z.eqb_eq Hl%String.eqb_eq]%andb_true_iff. by subst.
Qed.

Lemma initial_invariant : FormControls.form_invariant FormControls.initial.
Proof.
  split; [simpl; lia|].
  exists (CalendarForm.mkOption 30 "30 Minutes"). split; [|done].
  apply elem_of_cons. right. apply elem_of_cons. by left.
Qed.

Lemma handle_invariant st c :
  FormControls.form_invariant st → FormControls.form_invariant (FormControls.handle st c).
Proof.
  intros [Hlen Hdur]. unfold FormControls.handle.
  destruct (FormControls.rendered st c) eqn:Hr; [|by split].
  destruct c as [|index|index text|opt]; unfold FormControls.rendered in Hr.
  - split; [|done]. simpl. rewrite length_app. simpl. lia.
  - split; [|done]. simpl.
    apply andb_true_iff in Hr as [Hge%Nat.leb_le Hlt%Nat.ltb_lt].
    rewrite length_delete by (by apply lookup_lt_is_Some_2). lia.
  - split; [|done]. simpl. by rewrite length_insert.
  - split; [done|]. simpl.
    apply existsb_exists in Hr as (o & Ho%list_elem_of_In & Heq%same_option_eq).
    subst o. by exists opt.
Qed.

Lemma after_invariant controls : FormControls.form_invariant (FormControls.after controls).
Proof.
  unfold FormControls.after. generalize initial_invariant.
  generalize FormControls.initial. induction controls as [|c controls IH]; intros st Hst.
  - done.
  - simpl. apply IH. by apply handle_invariant.
Qed.

(** X13. Whatever the user does with the controls of the form, it keeps
    at least two link fields (the remove button exists from the third
    field on only) and a duration that is one of the offered options. *)
Theorem form_keeps_two_links (controls : list FormControls.Control) :
  2 ≤ length (FormControls.link_fields (FormControls.after controls)) ∧
  (∃ d, d ∈ CalendarForm.option_value <$> CalendarForm.durationOptions ∧
        FormControls.duration_field (FormControls.after controls) = JNum (ofZ d)) ∧
  (∀ index, index < 2 →
     FormControls.rendered (FormControls.after controls) (FormControls.RemoveLink index)
     = false).
Proof.
  destruct (after_invariant controls) as [Hlen (opt & Hopt & Hd)].
  split; [done|]. split.
  - exists (CalendarForm.option_value opt). split; [|done]. by apply list_elem_of_fmap_2.
  - intros index Hi. unfold FormControls.rendered.
    apply andb_false_iff. left. apply Nat.leb_gt. lia.
Qed.
End Controls.

Section ReachableMessages.
Context `{Platform}.

Lemma link_items_issues (texts : list string) p i :
  ∃ rs, parse_items CalendarForm.LinkSchema p i
          ((λ u, JObj [("value", JStr u)]) <$> texts) = Returned rs ∧
        Forall Accepted.link_message (issues rs).
Proof.
  revert i. induction texts as [|text texts IH]; intros i.
  - eexists. split; [reflexivity|]. constructor.
  - rewrite fmap_cons.
    change (parse_items CalendarForm.LinkSchema p i (?v :: ?l))
      with (r ← CalendarForm.LinkSchema (p ++ [Idx i]) v;
            rs ← parse_items CalendarForm.LinkSchema p (S i) l;
            Returned (mkParse (issues r ++ issues rs)
                        (match output r, output rs with
                         | Some x, Some xs => Some (x :: xs)
                         | _, _ => None
                         end))).
    rewrite (form_LinkSchema_string _ [("value", JStr text)] text eq_refl).
    destruct (isValidCalendarUrl_returns text) as [ok ->].
    destruct (IH (S i)) as (rs & -> & Hrs). simpl.
    eexists. split; [reflexivity|]. simpl.
    apply Forall_app. split; [|done]. apply Forall_app. split.
    + destruct (new_URL text); [constructor|].
      apply Forall_singleton. by left.
    + destruct ok; [constructor|]. apply Forall_singleton. by right.
Qed.

(** X14. For every state the user can bring the form into, the errors of
    the form schema carry one of three texts only: "Please enter a valid
    URL.", the host message, or "Please select a valid duration.".  The
    texts "Please provide at least two calendar links." and "Please
    select a duration." cannot come up. *)
Theorem reachable_form_messages (controls : list FormControls.Control)
    (errs : list ZodIssue) :
  safeParse CalendarForm.FormSchema (FormControls.values (FormControls.after controls))
    = Returned (ParseError errs) →
  Forall (λ i, message i = Some Accepted.url_message ∨
               message i = Some Accepted.host_message ∨
               message i = Some Accepted.valid_duration_message) errs ∧
  Forall (λ i, message i ≠ Some Accepted.two_links_message ∧
               message i ≠ Some Accepted.duration_message) errs.
Proof.
  intros Hp.
  assert (Forall (λ i, message i = Some Accepted.url_message ∨
                       message i = Some Accepted.host_message ∨
                       message i = Some Accepted.valid_duration_message) errs) as Hthree.
  { destruct (after_invariant controls) as [Hlen (opt & _ & Hd)].
    revert Hp. unfold safeParse, FormControls.values. rewrite FormSchema_unfold.
    change (getProp "links" _)
      with (Actions.links_value (FormControls.link_fields (FormControls.after controls))).
    change (getProp "duration" _)
      with (FormControls.duration_field (FormControls.after controls)).
    rewrite Hd. unfold Actions.links_value, array_min.
    destruct (link_items_issues (FormControls.link_fields (FormControls.after controls))
                [Key "links"] 0%nat) as (rs & -> & Hrs).
    rewrite (durationSchema_number [Key "duration"]
               (JNum (ofZ (CalendarForm.option_value opt)))
               (ofZ (CalendarForm.option_value opt)) eq_refl) by done.
    rewrite length_fmap. apply Nat.ltb_ge in Hlen. rewrite Hlen. simpl.
    assert (Forall (λ i, message i = Some Accepted.url_message ∨
                         message i = Some Accepted.host_message ∨
                         message i = Some Accepted.valid_duration_message)
              (issues rs ++
               issues (if includes_num CalendarForm.allowedDurations
                            (ofZ (CalendarForm.option_value opt))
                       then mkParse [] (Some (ofZ (CalendarForm.option_value opt)))
                       else mkParse
                              [mkIssue custom [Key "duration"]
                                 (Some "Please select a valid duration.")]
                              (Some (ofZ (CalendarForm.option_value opt)))))) as Hall.
    { apply Forall_app. split.
      - eapply Forall_impl; [exact Hrs|]. intros i [?|?]; auto.
      - destruct (includes_num _ _); [constructor|].
        apply Forall_singleton. by right; right. }
    destruct (issues rs ++ _) eqn:Hi.
    - destruct (output rs); [|by intros [= <-]].
      destruct (output _); [discriminate | by intros [= <-]].
    - by intros [= <-]. }
  split; [done|].
  eapply Forall_impl; [exact Hthree|]. intros i [Hm|[Hm|Hm]]; rewrite Hm; by split.
Qed.
End ReachableMessages.

Lemma reachable_form_messages_witness :
  Forall (λ i, message i = Some Accepted.url_message ∨
               message i = Some Accepted.host_message ∨
               message i = Some Accepted.valid_duration_message)
    [mkIssue invalid_string [Key "links"; Idx 1; Key "value"] (Some Accepted.url_message);
     mkIssue custom [Key "links"; Idx 1; Key "value"] (Some Accepted.host_message);
     mkIssue custom [Key "duration"] (Some Accepted.valid_duration_message)].
Proof.
  apply (@reachable_form_messages Samples.platform
           [FormControls.TypeLink 0 "https://calendly.com/ann";
            FormControls.SelectDuration (CalendarForm.mkOption 45 "45 Minutes");
            FormControls.RemoveLink 1]).
  reflexivity.
Defined.


(** ** Failures as values, and where an exception gets through *)

Section FailureValues.
Local Open Scope nat_scope.

Lemma fetch_one_cases `{TimeZones} (provider : AvailabilityProvider) (timeout : Z)
    (link : CalendarLink) :
  (∃ s, fetch_one provider timeout link = Fetched s ∧
        sourceId s = link_sourceId link ∧ normalized (slots s) = true) ∨
  (∃ reason, fetch_one provider timeout link
             = Failed (mkFailure (link_sourceId link) reason)).
Proof.
  unfold fetch_one.
  destruct (provider (locator link) timeout) as [tz raw|fault|].
  - destruct (normalize (link_sourceId link) tz raw) as [s|e] eqn:Hs.
    + left. exists s. apply normalize_Ok in Hs as (Hid & _ & _ & Hn). by split.
    + right. by eexists.
  - right. destruct fault; by eexists.
  - right. by eexists.
Qed.

Lemma successes_normalized `{TimeZones} (provider : AvailabilityProvider) (timeout : Z)
    (links : list CalendarLink) :
  Forall (λ s, normalized (slots s) = true)
    (successes (fetch_one provider timeout <$> links)).
Proof.
  apply Forall_forall. intros s (o & Ho & Hs)%list_elem_of_omap.
  apply list_elem_of_fmap in Ho as (link & -> & _).
  destruct (fetch_one_cases provider timeout link) as [(s' & Heq & _ & Hn)|(r & Heq)];
    rewrite Heq in Hs; [|discriminate].
  by injection Hs as <-.
Qed.

Lemma overlap_of_cases (outcomes : list FetchOutcome) (minDuration : option Z) :
  Forall (λ s, normalized (slots s) = true) (successes outcomes) →
  (length (successes outcomes) < 2 ∧
   overlap_of outcomes minDuration = Err (InsufficientSourcesError (failures_of outcomes))) ∨
  (2 ≤ length (successes outcomes) ∧
   ∃ common, overlap_of outcomes minDuration
             = Ok (mkOverlap common (failures_of outcomes))).
Proof.
  intros Hall. unfold overlap_of.
  destruct (Nat.ltb_spec (length (successes outcomes)) 2) as [Hlt|Hge]; [by left|].
  right. split; [done|].
  destruct (intersect_defined (successes outcomes) minDuration) as [common ->];
    [|done|by eexists].
  intros Hnil. rewrite Hnil in Hge. simpl in Hge. lia.
Qed.

Lemma computeOverlap_cases `{TimeZones} (provider : AvailabilityProvider) (timeout : Z)
    (links : list CalendarLink) (completion : list nat) (minDuration : option Z) :
  completion ≡ₚ seq 0 (length links) →
  (∃ fs, computeOverlap provider completion links minDuration timeout
         = Some (Err (InsufficientSourcesError fs))) ∨
  (∃ r, computeOverlap provider completion links minDuration timeout = Some (Ok r)).
Proof.
  intros Hperm. unfold computeOverlap.
  rewrite (fetch_all_outcomes provider timeout links completion Hperm). simpl.
  destruct (overlap_of_cases (fetch_one provider timeout <$> links) minDuration
              (successes_normalized provider timeout links))
    as [[_ ->]|[_ [common ->]]]; [left | right]; by eexists.
Qed.

Lemma normalize_cases `{TimeZones} (sid tz : string) (raw : list (Z * Z)) :
  (∃ s, normalize sid tz raw = Ok s) ∨ normalize sid tz raw = Err InvalidSlotError.
Proof.
  unfold normalize, normalize_slots.
  destruct (forallb valid_slot (convert tz <$> raw)); simpl; [left; by eexists | by right].
Qed.

Lemma intersect_cases (schedules : list AvailabilitySchedule) (minDuration : option Z) :
  (∃ common, intersect schedules minDuration = Ok common) ∨
  intersect schedules minDuration = Err PreconditionViolation.
Proof.
  unfold intersect. destruct schedules as [|s rest]; [by right|].
  destruct (forallb _ _); [|by right].
  destruct (sweep_cursors _ _); [left; by eexists | by right].
Qed.

Lemma readable_argument `{Platform} (props : list (string * Accessors.Property))
    (t v1 v2 : JsValue) :
  Accessors.readProp "then" props = Returned t →
  Accessors.readProp "links" props = Returned v1 →
  Accessors.readProp "duration" props = Returned v2 →
  Accessors.findAvailability (Accessors.ObjectWith props)
  = Actions.findAvailability (JObj [("links", v1); ("duration", v2)]).
Proof.
  intros Ht H1 H2.
  unfold Accessors.findAvailability, Actions.findAvailability,
    Accessors.safeParse, Zod.safeParse.
  unfold Accessors.FindAvailabilitySchema, Accessors.object2.
  rewrite FindAvailabilitySchema_unfold, Ht, H1, H2. reflexivity.
Qed.

(** C3 (amended). [getGoogleOauthToken] returns a value for every
    behaviour of the functions it calls and never throws: in each failure
    branch (no authenticated user, no token, an empty token, an exception
    out of the SDK) the value has [success: false] and an error text.
    [findAvailability] returns a value whenever the properties of its
    argument can be read, which covers all plain data, with [success:
    false] and "Invalid form data provided." when validation fails; an
    exception of the call is caught by its caller [onSubmit], which shows
    "Failed to communicate with the server.".  The operations of the
    engine give their failures as values: [normalize] an
    InvalidSlotError, [intersect] a PreconditionViolation, the task of a
    link a FetchFailure under the id of the link, and [computeOverlap] a
    result or InsufficientSourcesError, no other error. *)
Theorem failures_are_values_when_readable :
  (∀ Client (sdk : Clerk.Sdk Client),
    ∃ r, Clerk.getGoogleOauthToken sdk = Returned r ∧
      (Clerk.success r = false → Clerk.result_token r = None ∧ is_Some (Clerk.error r)) ∧
      (∀ e, Clerk.auth sdk = Thrown e →
            r = Clerk.failure "Failed to retrieve Google OAuth token.") ∧
      (∀ a, Clerk.auth sdk = Returned a →
         (Clerk.userId a = None ∨ Clerk.userId a = Some "" →
            r = Clerk.failure "User not authenticated.") ∧
         (∀ uid, Clerk.userId a = Some uid → uid ≠ "" →
            (∀ e, Clerk.clerkClient sdk = Thrown e →
                  r = Clerk.failure "Failed to retrieve Google OAuth token.") ∧
            (∀ c, Clerk.clerkClient sdk = Returned c →
               (∀ e, Clerk.getUserOauthAccessToken sdk c uid "oauth_google" = Thrown e →
                     r = Clerk.failure "Failed to retrieve Google OAuth token.") ∧
               (∀ resp, Clerk.getUserOauthAccessToken sdk c uid "oauth_google"
                        = Returned resp →
                  (Clerk.data resp = [] →
                     r = Clerk.failure "Google OAuth token not found for this user.") ∧
                  (∀ t rest, Clerk.data resp = t :: rest →
                     (Clerk.token t = "" →
                        r = Clerk.failure "Empty Google OAuth token received.") ∧
                     (Clerk.token t ≠ "" →
                        r = Clerk.mkResult true (Some (Clerk.token t)) None))))))) ∧
  (∀ (P : Platform) (arg : Accessors.Argument),
     (∀ props, arg = Accessors.ObjectWith props →
        returns (Accessors.readProp "then" props) ∧
        returns (Accessors.readProp "links" props) ∧
        returns (Accessors.readProp "duration" props)) →
     ∃ r, Accessors.findAvailability arg = Returned r ∧
       (Actions.success r = false → is_Some (Actions.error r)) ∧
       (∀ errs, Accessors.safeParse Accessors.FindAvailabilitySchema arg
                = Returned (ParseError errs) →
                r = Actions.mkResult false None None (Some "Invalid form data provided."))) ∧
  (∀ (P : Platform) (formData : JsValue),
     Accessors.findAvailability (Accessors.PlainData formData)
     = Actions.findAvailability formData ∧
     returns (Actions.findAvailability formData)) ∧
  (∀ (action : JsValue → outcome Actions.ActionResult) data e,
     action (FormControls.payload data) = Thrown e →
     FormControls.onSubmit action data
     = Returned (FormControls.toast_error "Failed to communicate with the server.")) ∧
  (∀ (TZ : TimeZones) sid tz raw,
     (∃ s, normalize sid tz raw = Ok s) ∨ normalize sid tz raw = Err InvalidSlotError) ∧
  (∀ schedules minDuration,
     (∃ common, intersect schedules minDuration = Ok common) ∨
     intersect schedules minDuration = Err PreconditionViolation) ∧
  (∀ (TZ : TimeZones) provider timeout link,
     (∃ s, fetch_one provider timeout link = Fetched s ∧
           sourceId s = link_sourceId link ∧ normalized (slots s) = true) ∨
     (∃ reason, fetch_one provider timeout link
                = Failed (mkFailure (link_sourceId link) reason))) ∧
  (∀ (TZ : TimeZones) provider timeout links completion minDuration,
     completion ≡ₚ seq 0 (length links) →
     (∃ fs, computeOverlap provider completion links minDuration timeout
            = Some (Err (InsufficientSourcesError fs))) ∨
     (∃ r, computeOverlap provider completion links minDuration timeout = Some (Ok r))).
Proof.
  split; [exact (proj1 token_and_action_return)|].
  split.
  { intros P arg Hread.
    assert (∃ formData, Accessors.findAvailability arg = Actions.findAvailability formData ∧
                        Accessors.safeParse Accessors.FindAvailabilitySchema arg
                        = Zod.safeParse Actions.FindAvailabilitySchema formData)
      as (formData & Heq & Hparse).
    { destruct arg as [v|props].
      - by exists v.
      - destruct (Hread props eq_refl) as ([t Ht] & [v1 H1] & [v2 H2]).
        exists (JObj [("links", v1); ("duration", v2)]). split.
        + by apply (readable_argument props t v1 v2).
        + unfold Accessors.safeParse, Zod.safeParse,
            Accessors.FindAvailabilitySchema, Accessors.object2.
          rewrite FindAvailabilitySchema_unfold, Ht, H1, H2. reflexivity. }
    rewrite Heq, Hparse.
    exact (proj2 token_and_action_return P formData). }
  split.
  { intros P formData. split; [reflexivity | apply findAvailability_returns]. }
  split.
  { intros action data e He. unfold FormControls.onSubmit. by rewrite He. }
  split; [intros; apply normalize_cases|].
  split; [intros; apply intersect_cases|].
  split; [intros; apply fetch_one_cases|].
  intros TZ provider timeout links completion minDuration Hperm.
  by apply computeOverlap_cases.
Qed.
End FailureValues.

(** C3, an argument whose [links] property is a getter that throws: the
    read happens inside [safeParse], nothing catches the exception, and
    the action throws where the claim has it return a value. *)
Lemma findAvailability_throws_on_getter :
  Accessors.findAvailability (H := Samples.platform) Accessors.throwing_links
  = Thrown (OtherError "boom") ∧
  ¬ returns (Accessors.findAvailability (H := Samples.platform) Accessors.throwing_links).
Proof.
  split; [reflexivity|]. intros [r Hr]. discriminate.
Qed.

Lemma failures_are_values_when_readable_witness :
  ∃ r, Accessors.findAvailability (H := Samples.platform)
         (Accessors.ObjectWith
            [("links", Accessors.AccessorProperty
                         (Returned (Actions.links_value ["https://calendly.com/ann"])));
             ("duration", Accessors.DataProperty (JNum (ofZ 30)))])
       = Returned r ∧
       (Actions.success r = false → is_Some (Actions.error r)).
Proof.
  destruct (proj1 (proj2 failures_are_values_when_readable) Samples.platform
              (Accessors.ObjectWith
                 [("links", Accessors.AccessorProperty
                              (Returned (Actions.links_value ["https://calendly.com/ann"])));
                  ("duration", Accessors.DataProperty (JNum (ofZ 30)))]))
    as (r & Hr & Herr & _).
  - intros props [= <-]. repeat split; by eexists.
  - by exists r.
Defined.
